(** * Keystore and transactional executor of the oracle node

    A shallow embedding of
      - core/services/postgres/sqlx.go   (SqlxTransaction)
      - core/services/keystore/master.go (keyManager and master.Migrate)
    followed by the properties of the specification that concern them.

    Go values are modelled as follows.
      - [error] values are trees built by [errors.New] and [errors.Wrap];
        a Go result of type [error] is an [option error] ([None] is nil),
        or an [outcome] where the function can also panic.
      - A [map[string]K] is a [gmap string K]; the key ring holds one such
        map per key family.
      - The receiver [km *keyManager] is threaded explicitly: every method
        takes the manager and returns the manager it leaves behind.  The
        lock is not modelled (all calls are sequential).
      - The ORM, the encryption envelope and the legacy key readers are
        collaborators whose code is outside this development; they are the
        fields of the class [Collaborators]. *)

From stdpp Require Import gmap strings list fin_maps.

Local Open Scope string_scope.

(** ** Errors *)

Inductive error : Type :=
| ErrNew (msg : string)                    (* errors.New, errors.Errorf, fmt.Errorf *)
| ErrWrap (cause : error) (msg : string).  (* errors.Wrap(cause, msg) *)

#[global] Instance error_eq_dec : EqDecision error.
Proof. solve_decision. Defined.

(** A Go pair [(value, error)]. *)
Inductive result (A : Type) : Type :=
| Ok (a : A)
| Fail (err : error).
Arguments Ok {A} a.
Arguments Fail {A} err.

(** What a call returning [error] can do: return nil, return an error, or
    panic (index out of range, reflection on a missing field). *)
Inductive outcome : Type :=
| Nil
| Err (err : error)
| Panic.

#[global] Instance outcome_eq_dec : EqDecision outcome.
Proof. solve_decision. Defined.

(** ** package postgres (sqlx.go) *)
Module postgres.

Section Executor.
(** [Conn] stands for [*sqlx.DB], [Tx] for [*sqlx.Tx]; [Mock] is any other
    implementation of the [Queryer] interface. *)
Context {Conn Tx Mock : Type}.

Inductive Queryer : Type :=
| sqlx_Tx (tx : Tx)
| sqlx_DB (db : Conn)
| unknownQueryer (q : Mock).

(** What the executor does with the database, in order. *)
Inductive txEvent : Type :=
| Begin (db : Conn)
| Run (q : Queryer)
| Commit (tx : Tx)
| Rollback (tx : Tx).

(** The transaction that [db.BeginTxx] hands out. *)
Variable BeginTxx : Conn -> Tx.

(** Modelled from the spec: sqlxTransactionQ is missing from the sources.
    Section 5: "a new transaction is opened, committed on success, and
    rolled back on any error". *)
Definition sqlxTransactionQ (db : Conn) (fc : Queryer -> option error)
  : option error * list txEvent :=
  let tx := BeginTxx db in
  match fc (sqlx_Tx tx) with
  | None => (None, [Begin db; Run (sqlx_Tx tx); Commit tx])
  | Some err => (Some err, [Begin db; Run (sqlx_Tx tx); Rollback tx])
  end.

(** [SqlxTransaction]; the package variable
    [AllowUnknownQueryerTypeInTransaction] is passed as an argument. *)
Definition SqlxTransaction (AllowUnknownQueryerTypeInTransaction : bool)
    (q : Queryer) (fc : Queryer -> option error)
  : option error * list txEvent :=
  match q with
  | sqlx_Tx db =>
      (* nested transaction: just use the outer transaction *)
      (fc (sqlx_Tx db), [Run (sqlx_Tx db)])
  | sqlx_DB db => sqlxTransactionQ db fc
  | unknownQueryer _ =>
      if AllowUnknownQueryerTypeInTransaction
      then (fc q, [Run q])
      else (Some (ErrNew "invalid db type"), [])
  end.

Definition isBegin (ev : txEvent) : bool :=
  match ev with Begin _ => true | _ => false end.
End Executor.

Arguments Queryer : clear implicits.
Arguments txEvent : clear implicits.

End postgres.

(** ** package keystore (master.go) *)
Module keystore.

(** A key of any family is an opaque value with a stable identifier. *)
Record KeyV2 : Type := { ID : string; raw : string }.

#[global] Instance KeyV2_eq_dec : EqDecision KeyV2.
Proof. solve_decision. Defined.

(** The [Key] interface: the five family types of the type switch in
    [getFieldNameForKey], and any other type with an [ID] method. *)
Inductive Key : Type :=
| csakey_KeyV2 (k : KeyV2)
| ethkey_KeyV2 (k : KeyV2)
| ocrkey_KeyV2 (k : KeyV2)
| p2pkey_KeyV2 (k : KeyV2)
| vrfkey_KeyV2 (k : KeyV2)
| otherKey (typeName : string) (k : KeyV2).

Definition valueOf (unknownKey : Key) : KeyV2 :=
  match unknownKey with
  | csakey_KeyV2 k | ethkey_KeyV2 k | ocrkey_KeyV2 k
  | p2pkey_KeyV2 k | vrfkey_KeyV2 k | otherKey _ k => k
  end.

Definition Key_ID (unknownKey : Key) : string := ID (valueOf unknownKey).

Record keyRing : Type := {
  CSA : gmap string KeyV2;
  Eth : gmap string KeyV2;
  OCR : gmap string KeyV2;
  P2P : gmap string KeyV2;
  VRF : gmap string KeyV2;
}.

#[global] Instance keyRing_eq_dec : EqDecision keyRing.
Proof. solve_decision. Defined.

Definition newKeyRing : keyRing :=
  {| CSA := ∅; Eth := ∅; OCR := ∅; P2P := ∅; VRF := ∅ |}.

Definition ErrLocked : error := ErrNew "Keystore is locked".

Definition getFieldNameForKey (unknownKey : Key) : result string :=
  match unknownKey with
  | csakey_KeyV2 _ => Ok "CSA"
  | ethkey_KeyV2 _ => Ok "Eth"
  | ocrkey_KeyV2 _ => Ok "OCR"
  | p2pkey_KeyV2 _ => Ok "P2P"
  | vrfkey_KeyV2 _ => Ok "VRF"
  | otherKey typeName _ => Fail (ErrNew ("unknown key type: " ++ typeName))
  end.

(** [reflect]: the field of the key ring with a given name, if any. *)
Definition FieldByName (kr : keyRing) (fieldName : string)
  : option (gmap string KeyV2) :=
  if decide (fieldName = "CSA") then Some (CSA kr)
  else if decide (fieldName = "Eth") then Some (Eth kr)
  else if decide (fieldName = "OCR") then Some (OCR kr)
  else if decide (fieldName = "P2P") then Some (P2P kr)
  else if decide (fieldName = "VRF") then Some (VRF kr)
  else None.

Definition set_CSA (kr : keyRing) (m : gmap string KeyV2) : keyRing :=
  {| CSA := m; Eth := Eth kr; OCR := OCR kr; P2P := P2P kr; VRF := VRF kr |}.
Definition set_Eth (kr : keyRing) (m : gmap string KeyV2) : keyRing :=
  {| CSA := CSA kr; Eth := m; OCR := OCR kr; P2P := P2P kr; VRF := VRF kr |}.
Definition set_OCR (kr : keyRing) (m : gmap string KeyV2) : keyRing :=
  {| CSA := CSA kr; Eth := Eth kr; OCR := m; P2P := P2P kr; VRF := VRF kr |}.
Definition set_P2P (kr : keyRing) (m : gmap string KeyV2) : keyRing :=
  {| CSA := CSA kr; Eth := Eth kr; OCR := OCR kr; P2P := m; VRF := VRF kr |}.
Definition set_VRF (kr : keyRing) (m : gmap string KeyV2) : keyRing :=
  {| CSA := CSA kr; Eth := Eth kr; OCR := OCR kr; P2P := P2P kr; VRF := m |}.

(** The key ring in which the map of field [fieldName] is replaced.  The maps
    are shared by reference in Go, so writing through the reflected field
    changes the manager's ring. *)
Definition withField (kr : keyRing) (fieldName : string)
    (m : gmap string KeyV2) : option keyRing :=
  if decide (fieldName = "CSA") then Some (set_CSA kr m)
  else if decide (fieldName = "Eth") then Some (set_Eth kr m)
  else if decide (fieldName = "OCR") then Some (set_OCR kr m)
  else if decide (fieldName = "P2P") then Some (set_P2P kr m)
  else if decide (fieldName = "VRF") then Some (set_VRF kr m)
  else None.

(** [keyRing.FieldByName(fieldName).SetMapIndex(id, v)]: [Some key] stores
    the key under [id], the zero [reflect.Value] ([None]) deletes [id].
    A missing field makes reflection panic ([None] as result). *)
Definition SetMapIndex (kr : keyRing) (fieldName : string) (id : string)
    (v : option KeyV2) : option keyRing :=
  match FieldByName kr fieldName with
  | None => None
  | Some keyMap =>
      withField kr fieldName
        (match v with
         | Some key => <[id := key]> keyMap
         | None => delete id keyMap
         end)
  end.

(** The loop of [Migrate] over the legacy keys of one family:
    [if _, exists := keyMap[key.ID()]; exists { continue }; keyMap[key.ID()] = key]. *)
Fixpoint migrateKeys (keyMap : gmap string KeyV2) (keys : list KeyV2)
  : gmap string KeyV2 :=
  match keys with
  | [] => keyMap
  | key :: keys =>
      match keyMap !! ID key with
      | Some _ => migrateKeys keyMap keys
      | None => migrateKeys (<[ID key := key]> keyMap) keys
      end
  end.

(** Key states: operational metadata of the Eth keys, by key id. *)
Record keyStates (State : Type) : Type := { ksEth : gmap string State }.
Arguments ksEth {State} _.

(** Calls that reach the store, as the ORM and the legacy readers see them. *)
Inductive ormCall (encryptedKeyRing callback : Type) : Type :=
| getEncryptedKeyRing_call
| loadKeyStates_call
| saveEncryptedKeyRing_call (ekb : encryptedKeyRing) (callbacks : list callback)
| GetV1KeysAsV2_call (fieldName : string).
Arguments getEncryptedKeyRing_call {_ _}.
Arguments loadKeyStates_call {_ _}.
Arguments saveEncryptedKeyRing_call {_ _} ekb callbacks.
Arguments GetV1KeysAsV2_call {_ _} fieldName.

(** The collaborators of the key manager.  [DB] is the durable state behind
    the ORM; reads are functions of it, [saveEncryptedKeyRing] returns the
    state it leaves. *)
Class Collaborators : Type := {
  DB : Type;
  encryptedKeyRing : Type;
  ScryptParams : Type;
  State : Type;
  callback : Type;
  (* ksORM *)
  getEncryptedKeyRing : DB -> result encryptedKeyRing;
  loadKeyStates : DB -> result (keyStates State);
  saveEncryptedKeyRing :
    DB -> encryptedKeyRing -> list callback -> option error * DB;
  (* encryption envelope *)
  Decrypt : encryptedKeyRing -> string -> result keyRing;
  Encrypt : keyRing -> string -> ScryptParams -> result encryptedKeyRing;
  (* keyStates.validate *)
  validate : keyStates State -> keyRing -> option error;
  (* legacy readers of the five facades *)
  csa_GetV1KeysAsV2 : DB -> result (list KeyV2);
  ocr_GetV1KeysAsV2 : DB -> result (list KeyV2);
  p2p_GetV1KeysAsV2 : DB -> result (list KeyV2);
  vrf_GetV1KeysAsV2 : DB -> string -> result (list KeyV2);
  eth_GetV1KeysAsV2 : DB -> Z -> result (list KeyV2 * list State);
  (* the write of an Eth key's state row *)
  ethStateWrite : State -> callback;
}.

Section KeyManager.
Context `{Collaborators}.

Record ksORM : Type := {
  db : DB;
  calls : list (ormCall encryptedKeyRing callback);
}.

Record keyManager : Type := {
  orm : ksORM;
  scryptParams : ScryptParams;
  km_keyRing : keyRing;
  km_keyStates : keyStates State;
  password : string;
}.

Definition set_orm (km : keyManager) (o : ksORM) : keyManager :=
  {| orm := o; scryptParams := scryptParams km; km_keyRing := km_keyRing km;
     km_keyStates := km_keyStates km; password := password km |}.

Definition set_keyRing (km : keyManager) (kr : keyRing) : keyManager :=
  {| orm := orm km; scryptParams := scryptParams km; km_keyRing := kr;
     km_keyStates := km_keyStates km; password := password km |}.

Definition set_keyStates (km : keyManager) (ks : keyStates State) : keyManager :=
  {| orm := orm km; scryptParams := scryptParams km; km_keyRing := km_keyRing km;
     km_keyStates := ks; password := password km |}.

Definition set_password (km : keyManager) (p : string) : keyManager :=
  {| orm := orm km; scryptParams := scryptParams km; km_keyRing := km_keyRing km;
     km_keyStates := km_keyStates km; password := p |}.

(** The store after a call: its new state, and the call recorded. *)
Definition called (km : keyManager) (d : DB)
    (c : ormCall encryptedKeyRing callback) : keyManager :=
  set_orm km {| db := d; calls := calls (orm km) ++ [c] |}.

Definition PasswordMismatch : error :=
  ErrNew "attempting to unlock keystore again with a different password".

Definition Unlock (km : keyManager) (pw : string) : option error * keyManager :=
  (* DEV: allow Unlock() to be idempotent *)
  if decide (password km ≠ "") then
    if decide (pw ≠ password km) then (Some PasswordMismatch, km)
    else (None, km)
  else
    let km := called km (db (orm km)) getEncryptedKeyRing_call in
    match getEncryptedKeyRing (db (orm km)) with
    | Fail err => (Some (ErrWrap err "unable to get encrypted key ring"), km)
    | Ok ekr =>
        match Decrypt ekr pw with
        | Fail err =>
            (Some (ErrWrap err "unable to decrypt encrypted key ring"), km)
        | Ok kr =>
            let km := set_keyRing km kr in
            let km := called km (db (orm km)) loadKeyStates_call in
            match loadKeyStates (db (orm km)) with
            | Fail err => (Some (ErrWrap err "unable to load key states"), km)
            | Ok ks =>
                match validate ks kr with
                | Some err => (Some err, km)
                | None =>
                    let km := set_keyStates km ks in
                    let km := set_password km pw in
                    (None, km)
                end
            end
        end
    end.

(* caller must hold lock! *)
Definition save (km : keyManager) (callbacks : list callback)
  : option error * keyManager :=
  match Encrypt (km_keyRing km) (password km) (scryptParams km) with
  | Fail err => (Some (ErrWrap err "unable to encrypt keyRing"), km)
  | Ok ekb =>
      let '(err, d) := saveEncryptedKeyRing (db (orm km)) ekb callbacks in
      (err, called km d (saveEncryptedKeyRing_call ekb callbacks))
  end.

(* caller must hold lock! *)
Definition safeAddKey (km : keyManager) (unknownKey : Key)
    (callbacks : list callback) : outcome * keyManager :=
  match getFieldNameForKey unknownKey with
  | Fail err => (Err err, km)
  | Ok fieldName =>
      (* add key to keyring *)
      let id := Key_ID unknownKey in
      let key := valueOf unknownKey in
      match SetMapIndex (km_keyRing km) fieldName id (Some key) with
      | None => (Panic, km)
      | Some kr =>
          (* save keyring to DB *)
          let '(err, km) := save (set_keyRing km kr) callbacks in
          match err with
          | Some err =>
              (* if save fails, remove key from keyring *)
              match SetMapIndex (km_keyRing km) fieldName id None with
              | None => (Panic, km)
              | Some kr => (Err err, set_keyRing km kr)
              end
          | None => (Nil, km)
          end
      end
  end.

(* caller must hold lock! *)
Definition safeRemoveKey (km : keyManager) (unknownKey : Key)
    (callbacks : list callback) : outcome * keyManager :=
  match getFieldNameForKey unknownKey with
  | Fail err => (Err err, km)
  | Ok fieldName =>
      let id := Key_ID unknownKey in
      let key := valueOf unknownKey in
      match SetMapIndex (km_keyRing km) fieldName id None with
      | None => (Panic, km)
      | Some kr =>
          (* save keyring to DB *)
          let '(err, km) := save (set_keyRing km kr) callbacks in
          match err with
          | Some err =>
              (* if save fails, add key back to keyRing *)
              match SetMapIndex (km_keyRing km) fieldName id (Some key) with
              | None => (Panic, km)
              | Some kr => (Err err, set_keyRing km kr)
              end
          | None => (Nil, km)
          end
      end
  end.

(* caller must hold lock! *)
Definition isLocked (km : keyManager) : bool :=
  bool_decide (String.length (password km) = 0).

(** Modelled from the spec: eth.addEthKeyWithState is missing from the
    sources.  Section 4.2: the Eth facade adds through [safeAddKey] and must
    "pass the corresponding state write as an extraWrite to save whenever an
    Eth key is added". *)
Definition addEthKeyWithState (km : keyManager) (key : KeyV2) (state : State)
  : outcome * keyManager :=
  safeAddKey km (ethkey_KeyV2 key) [ethStateWrite state].

(** The loop of [Migrate] over the legacy Eth keys; [idx] is the index of the
    head of [ethKeys] in the list that was fetched. *)
Fixpoint migrateEthKeys (km : keyManager) (idx : nat) (ethKeys : list KeyV2)
    (states : list State) : outcome * keyManager :=
  match ethKeys with
  | [] => (Nil, km)
  | ethKey :: ethKeys =>
      match Eth (km_keyRing km) !! ID ethKey with
      | Some _ => migrateEthKeys km (S idx) ethKeys states
      | None =>
          match states !! idx with
          | None => (Panic, km)   (* states[idx]: index out of range *)
          | Some state =>
              match addEthKeyWithState km ethKey state with
              | (Nil, km) =>
                  match save km [] with
                  | (Some err, km) => (Err err, km)
                  | (None, km) => migrateEthKeys km (S idx) ethKeys states
                  end
              | (res, km) => (res, km)
              end
          end
      end
  end.

Definition Migrate (km : keyManager) (vrfPssword : string) (chainID : Z)
  : outcome * keyManager :=
  if isLocked km then (Err ErrLocked, km) else
  let km := called km (db (orm km)) (GetV1KeysAsV2_call "CSA") in
  match csa_GetV1KeysAsV2 (db (orm km)) with
  | Fail err => (Err err, km)
  | Ok csaKeys =>
  let kr := km_keyRing km in
  let km := set_keyRing km (set_CSA kr (migrateKeys (CSA kr) csaKeys)) in
  let km := called km (db (orm km)) (GetV1KeysAsV2_call "OCR") in
  match ocr_GetV1KeysAsV2 (db (orm km)) with
  | Fail err => (Err err, km)
  | Ok ocrKeys =>
  let kr := km_keyRing km in
  let km := set_keyRing km (set_OCR kr (migrateKeys (OCR kr) ocrKeys)) in
  let km := called km (db (orm km)) (GetV1KeysAsV2_call "P2P") in
  match p2p_GetV1KeysAsV2 (db (orm km)) with
  | Fail err => (Err err, km)
  | Ok p2pKeys =>
  let kr := km_keyRing km in
  let km := set_keyRing km (set_P2P kr (migrateKeys (P2P kr) p2pKeys)) in
  let km := called km (db (orm km)) (GetV1KeysAsV2_call "VRF") in
  match vrf_GetV1KeysAsV2 (db (orm km)) vrfPssword with
  | Fail err => (Err err, km)
  | Ok vrfKeys =>
  let kr := km_keyRing km in
  let km := set_keyRing km (set_VRF kr (migrateKeys (VRF kr) vrfKeys)) in
  match save km [] with
  | (Some err, km) => (Err err, km)
  | (None, km) =>
  let km := called km (db (orm km)) (GetV1KeysAsV2_call "Eth") in
  match eth_GetV1KeysAsV2 (db (orm km)) chainID with
  | Fail err => (Err err, km)
  | Ok (ethKeys, states) => migrateEthKeys km 0 ethKeys states
  end end end end end end.

(** The save calls among the calls that reached the store. *)
Definition isSave (c : ormCall encryptedKeyRing callback) : bool :=
  match c with saveEncryptedKeyRing_call _ _ => true | _ => false end.

End KeyManager.

(** The key families, as the specification names them (section 3: "concrete
    variants: CSA, Eth, OCR, P2P, VRF"), the family of a key value and the
    map of a family in a key ring.  The code has no such type: it goes
    through field names; these definitions are what it is compared with. *)
Inductive family : Type := famCSA | famEth | famOCR | famP2P | famVRF.

#[global] Instance family_eq_dec : EqDecision family.
Proof. solve_decision. Defined.

Definition familyOf (unknownKey : Key) : option family :=
  match unknownKey with
  | csakey_KeyV2 _ => Some famCSA
  | ethkey_KeyV2 _ => Some famEth
  | ocrkey_KeyV2 _ => Some famOCR
  | p2pkey_KeyV2 _ => Some famP2P
  | vrfkey_KeyV2 _ => Some famVRF
  | otherKey _ _ => None
  end.

Definition familyMap (fam : family) (kr : keyRing) : gmap string KeyV2 :=
  match fam with
  | famCSA => CSA kr
  | famEth => Eth kr
  | famOCR => OCR kr
  | famP2P => P2P kr
  | famVRF => VRF kr
  end.

Definition setFamilyMap (fam : family) (kr : keyRing) (m : gmap string KeyV2)
  : keyRing :=
  match fam with
  | famCSA => set_CSA kr m
  | famEth => set_Eth kr m
  | famOCR => set_OCR kr m
  | famP2P => set_P2P kr m
  | famVRF => set_VRF kr m
  end.

(** The specification's reading of the merge of one family (section 4.3,
    step 1): an id of the ring keeps its key; any other id gets the first
    legacy key that carries it. *)
Definition firstWithID (id : string) (keys : list KeyV2) : option KeyV2 :=
  head (filter (λ key, ID key = id) keys).

Definition mergedLookup (keyMap : gmap string KeyV2) (keys : list KeyV2)
    (id : string) : option KeyV2 :=
  match keyMap !! id with
  | Some key => Some key
  | None => firstWithID id keys
  end.

(** The ring after the four bulk merges of [Migrate]. *)
Definition mergedRing (kr : keyRing) (csaKeys ocrKeys p2pKeys vrfKeys : list KeyV2)
  : keyRing :=
  {| CSA := migrateKeys (CSA kr) csaKeys;
     Eth := Eth kr;
     OCR := migrateKeys (OCR kr) ocrKeys;
     P2P := migrateKeys (P2P kr) p2pKeys;
     VRF := migrateKeys (VRF kr) vrfKeys |}.

(** Modelled from the spec: the facades' GetAll is missing from the sources.
    Section 4.2: a read-only view of the ring "scoped to exactly one
    family"; it lists the entries of that family's map. *)
Definition GetAll (fam : family) (kr : keyRing) : list KeyV2 :=
  (map_to_list (familyMap fam kr)).*2.

Section Calls.
Context `{Collaborators}.

(** A sequence of add and remove calls on a manager. *)
Inductive mutation : Type :=
| addKey (unknownKey : Key) (callbacks : list callback)
| removeKey (unknownKey : Key) (callbacks : list callback).

Definition mutate (km : keyManager) (c : mutation) : keyManager :=
  match c with
  | addKey unknownKey callbacks => (safeAddKey km unknownKey callbacks).2
  | removeKey unknownKey callbacks => (safeRemoveKey km unknownKey callbacks).2
  end.

Definition mutateAll (km : keyManager) (cs : list mutation) : keyManager :=
  foldl mutate km cs.

(** The extra writes of a save call; nothing for a call that is no save. *)
Definition saveCallbacks (c : ormCall encryptedKeyRing callback)
  : option (list callback) :=
  match c with
  | saveEncryptedKeyRing_call _ callbacks => Some callbacks
  | _ => None
  end.

(** The legacy Eth keys that a run of the Eth loop adds, with their states,
    in order: those whose id is neither in the map nor added before. *)
Fixpoint ethToMigrate (keyMap : gmap string KeyV2) (idx : nat)
    (ethKeys : list KeyV2) (states : list State) : list (KeyV2 * State) :=
  match ethKeys with
  | [] => []
  | ethKey :: ethKeys =>
      match keyMap !! ID ethKey, states !! idx with
      | Some _, _ => ethToMigrate keyMap (S idx) ethKeys states
      | None, Some state =>
          (ethKey, state)
            :: ethToMigrate (<[ID ethKey := ethKey]> keyMap) (S idx) ethKeys states
      | None, None => []
      end
  end.


(** The manager after the four bulk merges of [Migrate], before the save:
    the merged ring, and the four legacy reads recorded. *)
Definition afterMerge (km : keyManager)
    (csaKeys ocrKeys p2pKeys vrfKeys : list KeyV2) : keyManager :=
  set_orm
    (set_keyRing km (mergedRing (km_keyRing km) csaKeys ocrKeys p2pKeys vrfKeys))
    {| db := db (orm km);
       calls := calls (orm km)
                ++ [GetV1KeysAsV2_call "CSA"; GetV1KeysAsV2_call "OCR";
                    GetV1KeysAsV2_call "P2P"; GetV1KeysAsV2_call "VRF"] |}.

(** The state that the lock guards. *)
Definition guarded (km : keyManager) : keyRing * keyStates State * string :=
  (km_keyRing km, km_keyStates km, password km).

End Calls.

End keystore.

(** ** package offchainreporting (peerstore.go)

    The peerstore wrapper keeps the addresses of the peers of one peer id in
    the table p2p_peers.  The database, the peer id and multiaddress
    decoders and the in-memory peerstore are outside this development; the
    query result, the decoders, [tx.Exec] and the peerstore's contents are
    arguments. *)
Module offchainreporting.

(** A row of p2p_peers; the two time stamps are never set by this code. *)
Record P2PPeer : Type := { ID : string; Addr : string; PeerID : string }.

Definition TableName (_ : P2PPeer) : string := "p2p_peers".

(** [errors.Wrap], which returns nil for a nil error. *)
Definition Wrap (err : option error) (msg : string) : option error :=
  match err with
  | None => None
  | Some err => Some (ErrWrap err msg)
  end.

(** What a query hands out: the outcome of each [rows.Scan] while
    [rows.Next] holds, and [rows.Err] once it does not. *)
Record Rows : Type := {
  scans : list (result (string * string));
  rowsErr : option error;
}.

(** The scan loop of [getPeers]; [peers] are the rows appended so far. *)
Fixpoint scanRows (scans : list (result (string * string)))
    (peers : list P2PPeer) : result (list P2PPeer) :=
  match scans with
  | [] => Ok peers
  | Ok (id, addr) :: scans =>
      scanRows scans (peers ++ [{| ID := id; Addr := addr; PeerID := "" |}])
  | Fail err :: _ => Fail (ErrWrap err "unexpected error scanning row")
  end.

(** [getPeers]; [query] is what the SELECT for the wrapper's peer id
    returns. *)
Definition getPeers (query : result Rows) : result (list P2PPeer) :=
  match query with
  | Fail err => Fail (ErrWrap err "error querying peers")
  | Ok rows =>
      match scanRows (scans rows) [] with
      | Fail err => Fail err
      | Ok peers =>
          match rowsErr rows with
          | Some err => Fail err
          | None => Ok peers
          end
      end
  end.

(** The peer that a scanned pair of columns gives. *)
Definition scanned (row : string * string) : P2PPeer :=
  {| ID := row.1; Addr := row.2; PeerID := "" |}.

Section Peerstore.
(** [peerID] stands for [p2ppeer.ID], [multiaddr] for [ma.Multiaddr], [Tx]
    for the state of the transaction that [tx.Exec] works on. *)
Context {peerID multiaddr Tx : Type}.
Variable Decode : string → result peerID.
Variable NewMultiaddr : string → result multiaddr.

(** The loop of [readFromDB]; the peerstore is the list of the [AddAddr]
    calls it received, in order. *)
Fixpoint addPeers (peers : list P2PPeer) (store : list (peerID * multiaddr))
  : option error * list (peerID * multiaddr) :=
  match peers with
  | [] => (None, store)
  | peer :: peers =>
      match Decode (ID peer) with
      | Fail err =>
          (Some (ErrWrap err
                   ("unexpectedly failed to decode peer ID '" ++ ID peer ++ "'")),
           store)
      | Ok pid =>
          match NewMultiaddr (Addr peer) with
          | Fail err =>
              (Some (ErrWrap err
                       ("unexpectedly failed to decode peer multiaddr '"
                        ++ Addr peer ++ "'")),
               store)
          | Ok peerAddr => addPeers peers (store ++ [(pid, peerAddr)])
          end
      end
  end.

Definition readFromDB (query : result Rows) (store : list (peerID * multiaddr))
  : option error * list (peerID * multiaddr) :=
  match getPeers query with
  | Fail err => (Some err, store)
  | Ok peers => addPeers peers store
  end.

(** A row that both decoders accept, decoded. *)
Definition decoded (peer : P2PPeer) : option (peerID * multiaddr) :=
  match Decode (ID peer), NewMultiaddr (Addr peer) with
  | Ok pid, Ok peerAddr => Some (pid, peerAddr)
  | _, _ => None
  end.

Variable PeersWithAddrs : list peerID.        (* p.Peerstore.PeersWithAddrs() *)
Variable Addrs : peerID → list multiaddr.     (* p.Peerstore.Addrs(pid) *)
Variable pidString : peerID → string.         (* pid.String() *)
Variable addrString : multiaddr → string.     (* addr.String() *)
Variable Rebind : string → string.            (* sqlx.Rebind(sqlx.DOLLAR, stmt) *)
Variable Exec : Tx → string → list string → option error * Tx.

Definition deleteStmt : string := "DELETE FROM p2p_peers WHERE peer_id = $1".
Definition insertHead : string :=
  "INSERT INTO p2p_peers (id, addr, peer_id, created_at, updated_at) VALUES ".
Definition valueGroup : string := "(?, ?, ?, NOW(), NOW())".

(** The rows that [WriteToDB] collects from the peerstore. *)
Definition peerRows (wrapperPeerID : string) : list P2PPeer :=
  flat_map
    (λ pid, map (λ addr, {| ID := pidString pid; Addr := addrString addr;
                            PeerID := wrapperPeerID |})
                (Addrs pid))
    PeersWithAddrs.

Definition valueStrings (peers : list P2PPeer) : list string :=
  map (λ _, valueGroup) peers.

Definition valueArgs (peers : list P2PPeer) : list string :=
  flat_map (λ p, [ID p; Addr p; PeerID p]) peers.

(** The statement before [Rebind]:
    [fmt.Sprintf("INSERT ... VALUES %s", strings.Join(valueStrings, ","))]. *)
Definition insertStmt (peers : list P2PPeer) : string :=
  insertHead ++ String.concat "," (valueStrings peers).

(** The function that [WriteToDB] runs in its transaction.  It returns its
    error, the transaction it leaves, and the statements it executed with
    their arguments. *)
Definition writePeers (wrapperPeerID : string) (tx : Tx)
  : option error * Tx * list (string * list string) :=
  let '(err, tx) := Exec tx deleteStmt [wrapperPeerID] in
  match err with
  | Some err =>
      (Some (ErrWrap err "delete from p2p_peers failed"), tx,
       [(deleteStmt, [wrapperPeerID])])
  | None =>
      let peers := peerRows wrapperPeerID in
      let stmt := Rebind (insertStmt peers) in
      let '(err, tx) := Exec tx stmt (valueArgs peers) in
      (Wrap err "insert into p2p_peers failed", tx,
       [(deleteStmt, [wrapperPeerID]); (stmt, valueArgs peers)])
  end.

End Peerstore.

(** The number of placeholders [?] of a statement. *)
Definition questionMark : Ascii.ascii :=
  match "?" with
  | String c _ => c
  | EmptyString => Ascii.zero
  end.

Fixpoint placeholders (stmt : string) : nat :=
  match stmt with
  | EmptyString => 0
  | String c stmt =>
      (if Ascii.eqb c questionMark then 1 else 0) + placeholders stmt
  end.

End offchainreporting.

(** ** A store kept in memory

    A concrete choice of collaborators, used to run the model on examples.
    The "ciphertext" of a key ring is the ring paired with the password that
    seals it; the store can be told to reject the next saves. *)
Module memstore.
Import keystore.

Definition memState : Type := string * Z.          (* key id, chain id *)
Definition memBlob : Type := string * keyRing.     (* password, sealed ring *)

Record memDB : Type := {
  row : option memBlob;                 (* the encrypted key ring row *)
  stateRows : gmap string memState;     (* Eth key state rows, by key id *)
  saveFails : bool;                     (* the store rejects writes *)
  v1csa : result (list KeyV2);          (* legacy tables *)
  v1ocr : result (list KeyV2);
  v1p2p : result (list KeyV2);
  v1vrf : result (list KeyV2);
  v1eth : result (list KeyV2 * list memState);
}.

Definition ErrNoRows : error := ErrNew "sql: no rows in result set".
Definition ErrDecrypt : error := ErrNew "could not decrypt data".
Definition ErrStore : error := ErrNew "store unavailable".

Definition mem_get (d : memDB) : result memBlob :=
  match row d with
  | Some ekr => Ok ekr
  | None => Fail ErrNoRows
  end.

Definition mem_save (d : memDB) (ekb : memBlob) (callbacks : list memState)
  : option error * memDB :=
  if saveFails d then (Some ErrStore, d)
  else (None,
        {| row := Some ekb;
           stateRows := foldl (λ m st, <[st.1 := st]> m) (stateRows d) callbacks;
           saveFails := saveFails d;
           v1csa := v1csa d; v1ocr := v1ocr d; v1p2p := v1p2p d;
           v1vrf := v1vrf d; v1eth := v1eth d |}).

Definition mem_Decrypt (ekr : memBlob) (pw : string) : result keyRing :=
  if decide (ekr.1 = pw) then Ok ekr.2 else Fail ErrDecrypt.

(** Modelled from the spec: keyStates.validate is missing from the sources.
    Section 3: "every key-state entry must reference a key id present in the
    Eth map, or validation fails". *)
Definition mem_validate (ks : keyStates memState) (kr : keyRing) : option error :=
  if decide (dom (ksEth ks) ⊆ dom (Eth kr)) then None
  else Some (ErrNew "key state references a key that is not in the key ring").

Definition memCollab : Collaborators := {|
  DB := memDB;
  encryptedKeyRing := memBlob;
  ScryptParams := unit;
  State := memState;
  callback := memState;
  getEncryptedKeyRing := mem_get;
  loadKeyStates := λ d, Ok {| ksEth := stateRows d |};
  saveEncryptedKeyRing := mem_save;
  Decrypt := mem_Decrypt;
  Encrypt := λ kr pw _, Ok (pw, kr);
  validate := mem_validate;
  csa_GetV1KeysAsV2 := v1csa;
  ocr_GetV1KeysAsV2 := v1ocr;
  p2p_GetV1KeysAsV2 := v1p2p;
  vrf_GetV1KeysAsV2 := λ d _, v1vrf d;
  eth_GetV1KeysAsV2 := λ d _, v1eth d;
  ethStateWrite := λ st, st;
|}.

Definition k1 : KeyV2 := {| ID := "k1"; raw := "secret-1" |}.
Definition k1' : KeyV2 := {| ID := "k1"; raw := "secret-1-rotated" |}.
Definition k2 : KeyV2 := {| ID := "k2"; raw := "secret-2" |}.
Definition k3 : KeyV2 := {| ID := "k3"; raw := "secret-3" |}.

Definition ringEth (m : gmap string KeyV2) : keyRing := set_Eth newKeyRing m.

(** A store with nothing in the legacy tables. *)
Definition store (r : option memBlob) (rows : gmap string memState)
    (fails : bool) : memDB :=
  {| row := r; stateRows := rows; saveFails := fails;
     v1csa := Ok []; v1ocr := Ok []; v1p2p := Ok []; v1vrf := Ok [];
     v1eth := Ok ([], []) |}.

Definition manager (d : memDB) (kr : keyRing) (pw : string)
  : @keyManager memCollab :=
  @Build_keyManager memCollab (@Build_ksORM memCollab d [])
    () kr {| ksEth := ∅ |} pw.

(** A freshly constructed manager over a store whose row is sealed with
    "pw1" and holds the Eth key k1. *)
Definition sealed : memDB := store (Some ("pw1", ringEth {[ "k1" := k1 ]})) ∅ false.
Definition locked : @keyManager memCollab := manager sealed newKeyRing "".

(** The same store with a state row for a key that the ring does not hold. *)
Definition dangling : memDB :=
  store (Some ("pw1", ringEth {[ "k1" := k1 ]})) {[ "k9" := ("k9", 1%Z) ]} false.

(** An unlocked manager that holds k1, over a store that rejects writes. *)
Definition rejecting : memDB := store None ∅ true.
Definition holdsK1 : @keyManager memCollab :=
  manager rejecting (ringEth {[ "k1" := k1 ]}) "pw1".

(** The same manager over a store that accepts writes. *)
Definition holdsK1' : @keyManager memCollab :=
  manager sealed (ringEth {[ "k1" := k1 ]}) "pw1".

(** A locked manager over the store with the dangling state row. *)
Definition unvalidated : @keyManager memCollab := manager dangling newKeyRing "".

(** Stores with legacy tables: a CSA key, a P2P key and an Eth key with its
    state; and the same with a legacy table that cannot be read. *)
Definition ErrLegacy : error := ErrNew "relation does not exist".

Definition legacyStore (csa ocr : result (list KeyV2)) : memDB :=
  {| row := None; stateRows := ∅; saveFails := false;
     v1csa := csa; v1ocr := ocr; v1p2p := Ok [k3]; v1vrf := Ok [];
     v1eth := Ok ([k2], [("k2", 1%Z)]) |}.

Definition fresh : @keyManager memCollab :=
  manager (legacyStore (Ok [k1]) (Ok [])) newKeyRing "pw1".
Definition csaBroken : @keyManager memCollab :=
  manager (legacyStore (Fail ErrLegacy) (Ok [])) newKeyRing "pw1".
Definition ocrBroken : @keyManager memCollab :=
  manager (legacyStore (Ok [k1]) (Fail ErrLegacy)) newKeyRing "pw1".

(** The manager that one run of Migrate leaves. *)
Definition migrated : @keyManager memCollab := (Migrate fresh "" 1).2.

(** An executor whose transactions are numbered after their connection, and
    a function that fails on transaction 8 only. *)
Definition beginTx (db : nat) : nat := S db.
Definition ErrQuery : error := ErrNew "query failed".
Definition failsOn8 (q : postgres.Queryer nat nat unit) : option error :=
  match q with
  | postgres.sqlx_Tx 8 => Some ErrQuery
  | _ => None
  end.

(** A peerstore sample: decoders that refuse the empty string, two peers
    with three addresses, and a transaction that counts its statements and
    refuses the DELETE when told to. *)
Definition decodeNonEmpty (s : string) : result string :=
  if decide (s = "") then Fail (ErrNew "empty") else Ok s.
Definition peerAddrs (pid : string) : list string :=
  if decide (pid = "peerA") then ["/ip4/1.2.3.4/tcp/1"; "/ip4/1.2.3.4/tcp/2"]
  else ["/ip4/5.6.7.8/tcp/1"].
Definition execCounting (refuseDelete : bool) (tx : nat) (stmt : string)
    (args : list string) : option error * nat :=
  if refuseDelete && bool_decide (stmt = offchainreporting.deleteStmt)
  then (Some ErrQuery, S tx) else (None, S tx).
Definition threeRows : offchainreporting.Rows :=
  {| offchainreporting.scans :=
       [Ok ("peerA", "/ip4/1.2.3.4/tcp/1"); Ok ("", "/ip4/9.9.9.9/tcp/1");
        Ok ("peerB", "/ip4/5.6.7.8/tcp/1")];
     offchainreporting.rowsErr := None |}.

(** The manager that a first Unlock with the right password leaves; and a
    locked manager over a store whose ring is sealed with the empty
    password. *)
Definition unlocked : @keyManager memCollab := (Unlock locked "pw1").2.
Definition lockedEmpty : @keyManager memCollab :=
  manager (store (Some ("", ringEth {[ "k1" := k1 ]})) ∅ false) newKeyRing "".

(** Unlocked managers over legacy tables: one whose store rejects writes,
    and one whose legacy Eth keys come without states. *)
Definition staleStore : @keyManager memCollab :=
  manager {| row := None; stateRows := ∅; saveFails := true;
             v1csa := Ok [k1]; v1ocr := Ok []; v1p2p := Ok [k3];
             v1vrf := Ok []; v1eth := Ok ([k2], [("k2", 1%Z)]) |}
          newKeyRing "pw1".
Definition shortStates : @keyManager memCollab :=
  manager {| row := None; stateRows := ∅; saveFails := false;
             v1csa := Ok [k1]; v1ocr := Ok []; v1p2p := Ok [k3];
             v1vrf := Ok []; v1eth := Ok ([k2], []) |}
          newKeyRing "pw1".

End memstore.

(** ** A store with scripted saves

    The store is the list of the outcomes of the saves to come ([true]: the
    save is accepted); once the list is used up every save is accepted.  The
    legacy tables hold the CSA key k1 and the Eth key k2 with its state, and
    do not depend on the store. *)
Module scripted.
Import keystore.

Definition ErrDiskFull : error := ErrNew "disk full".

Definition scripted_save (d : list bool) (ekb : string * keyRing)
    (callbacks : list (string * Z)) : option error * list bool :=
  match d with
  | [] => (None, [])
  | true :: d => (None, d)
  | false :: d => (Some ErrDiskFull, d)
  end.

Definition scriptCollab : Collaborators := {|
  DB := list bool;
  encryptedKeyRing := string * keyRing;
  ScryptParams := unit;
  State := string * Z;
  callback := string * Z;
  getEncryptedKeyRing := λ _, Fail memstore.ErrNoRows;
  loadKeyStates := λ _, Ok {| ksEth := ∅ |};
  saveEncryptedKeyRing := scripted_save;
  Decrypt := memstore.mem_Decrypt;
  Encrypt := λ kr pw _, Ok (pw, kr);
  validate := memstore.mem_validate;
  csa_GetV1KeysAsV2 := λ _, Ok [memstore.k1];
  ocr_GetV1KeysAsV2 := λ _, Ok [];
  p2p_GetV1KeysAsV2 := λ _, Ok [];
  vrf_GetV1KeysAsV2 := λ _ _, Ok [];
  eth_GetV1KeysAsV2 := λ _ _, Ok ([memstore.k2], [("k2", 1%Z)]);
  ethStateWrite := λ st, st;
|}.

(** An unlocked manager with an empty ring over a scripted store. *)
Definition manager (script : list bool) : @keyManager scriptCollab :=
  @Build_keyManager scriptCollab (@Build_ksORM scriptCollab script [])
    () newKeyRing {| ksEth := ∅ |} "pw1".




End scripted.

(** * Properties *)

Import keystore.

Section KeystoreFacts.
Context `{Collaborators}.

Implicit Types (km : keyManager) (kr : keyRing) (unknownKey : Key).

Lemma isLocked_true km : isLocked km = true ↔ password km = "".
Proof.
  unfold isLocked. rewrite bool_decide_eq_true.
  destruct (password km); simpl; split; congruence.
Qed.

Lemma isLocked_false km : isLocked km = false ↔ password km ≠ "".
Proof.
  rewrite <- isLocked_true. destruct (isLocked km); split; congruence.
Qed.

Lemma getFieldNameForKey_family unknownKey fam :
  familyOf unknownKey = Some fam →
  ∃ fieldName, getFieldNameForKey unknownKey = Ok fieldName ∧
    ∀ kr, FieldByName kr fieldName = Some (familyMap fam kr).
Proof.
  destruct unknownKey; simpl; intros [= <-]; eexists; (split; [reflexivity|]);
    intros kr; reflexivity.
Qed.

Lemma getFieldNameForKey_other unknownKey :
  familyOf unknownKey = None →
  ∃ typeName, getFieldNameForKey unknownKey
              = Fail (ErrNew ("unknown key type: " ++ typeName)).
Proof. destruct unknownKey; simpl; intros [=]; eauto. Qed.

Lemma save_guarded km callbacks : guarded (save km callbacks).2 = guarded km.
Proof.
  unfold save. destruct (Encrypt _ _ _); [|reflexivity].
  destruct (saveEncryptedKeyRing _ _ _); reflexivity.
Qed.

Lemma save_keyRing km callbacks : km_keyRing (save km callbacks).2 = km_keyRing km.
Proof. pose proof (save_guarded km callbacks) as E. unfold guarded in E. congruence. Qed.

Lemma save_password km callbacks : password (save km callbacks).2 = password km.
Proof. pose proof (save_guarded km callbacks) as E. unfold guarded in E. congruence. Qed.

Lemma save_keyStates km callbacks :
  km_keyStates (save km callbacks).2 = km_keyStates km.
Proof. pose proof (save_guarded km callbacks) as E. unfold guarded in E. congruence. Qed.

End KeystoreFacts.

Section MutationFacts.
Context `{Collaborators}.

Implicit Types (km : keyManager) (kr : keyRing) (unknownKey : Key).

Lemma familyMap_setFamilyMap fam kr m : familyMap fam (setFamilyMap fam kr m) = m.
Proof. destruct fam; reflexivity. Qed.

Lemma familyMap_setFamilyMap_ne fam fam' kr m :
  fam' ≠ fam → familyMap fam' (setFamilyMap fam kr m) = familyMap fam' kr.
Proof. destruct fam, fam'; simpl; congruence. Qed.

Lemma setFamilyMap_id fam kr : setFamilyMap fam kr (familyMap fam kr) = kr.
Proof. destruct fam, kr; reflexivity. Qed.

Lemma setFamilyMap_twice fam kr m1 m2 :
  setFamilyMap fam (setFamilyMap fam kr m1) m2 = setFamilyMap fam kr m2.
Proof. destruct fam; reflexivity. Qed.

Lemma SetMapIndex_setFamilyMap unknownKey fam fieldName kr id v :
  familyOf unknownKey = Some fam →
  getFieldNameForKey unknownKey = Ok fieldName →
  SetMapIndex kr fieldName id v =
    Some (setFamilyMap fam kr
            match v with
            | Some key => <[id := key]> (familyMap fam kr)
            | None => delete id (familyMap fam kr)
            end).
Proof.
  destruct unknownKey; simpl; intros [= <-] [= <-]; reflexivity.
Qed.

(** [safeAddKey] on a key of a known family, in terms of [save]. *)
Lemma safeAddKey_family km unknownKey fam callbacks :
  familyOf unknownKey = Some fam →
  safeAddKey km unknownKey callbacks =
    let id := Key_ID unknownKey in
    let kr := km_keyRing km in
    let r := save (set_keyRing km
               (setFamilyMap fam kr (<[id := valueOf unknownKey]> (familyMap fam kr))))
               callbacks in
    match r.1 with
    | Some err =>
        (Err err,
         set_keyRing r.2
           (setFamilyMap fam (km_keyRing r.2)
              (delete id (familyMap fam (km_keyRing r.2)))))
    | None => (Nil, r.2)
    end.
Proof.
  intros Hfam.
  destruct (getFieldNameForKey_family _ _ Hfam) as (fieldName & Hname & _).
  unfold safeAddKey. rewrite Hname.
  rewrite (SetMapIndex_setFamilyMap _ _ _ _ _ _ Hfam Hname). simpl.
  destruct (save _ callbacks) as [[err|] km1]; simpl; [|reflexivity].
  rewrite (SetMapIndex_setFamilyMap _ _ _ _ _ _ Hfam Hname). reflexivity.
Qed.

(** [safeRemoveKey] on a key of a known family, in terms of [save]. *)
Lemma safeRemoveKey_family km unknownKey fam callbacks :
  familyOf unknownKey = Some fam →
  safeRemoveKey km unknownKey callbacks =
    let id := Key_ID unknownKey in
    let kr := km_keyRing km in
    let r := save (set_keyRing km
               (setFamilyMap fam kr (delete id (familyMap fam kr)))) callbacks in
    match r.1 with
    | Some err =>
        (Err err,
         set_keyRing r.2
           (setFamilyMap fam (km_keyRing r.2)
              (<[id := valueOf unknownKey]> (familyMap fam (km_keyRing r.2)))))
    | None => (Nil, r.2)
    end.
Proof.
  intros Hfam.
  destruct (getFieldNameForKey_family _ _ Hfam) as (fieldName & Hname & _).
  unfold safeRemoveKey. rewrite Hname.
  rewrite (SetMapIndex_setFamilyMap _ _ _ _ _ _ Hfam Hname). simpl.
  destruct (save _ callbacks) as [[err|] km1]; simpl; [|reflexivity].
  rewrite (SetMapIndex_setFamilyMap _ _ _ _ _ _ Hfam Hname). reflexivity.
Qed.

Lemma safeAddKey_other km unknownKey callbacks :
  familyOf unknownKey = None → (safeAddKey km unknownKey callbacks).2 = km.
Proof.
  intros Hfam. destruct (getFieldNameForKey_other _ Hfam) as (t & Ht).
  unfold safeAddKey. rewrite Ht. reflexivity.
Qed.

Lemma safeRemoveKey_other km unknownKey callbacks :
  familyOf unknownKey = None → (safeRemoveKey km unknownKey callbacks).2 = km.
Proof.
  intros Hfam. destruct (getFieldNameForKey_other _ Hfam) as (t & Ht).
  unfold safeRemoveKey. rewrite Ht. reflexivity.
Qed.

(** Neither call touches the password or the key states, and neither panics. *)
Lemma safeAddKey_password km unknownKey callbacks :
  password (safeAddKey km unknownKey callbacks).2 = password km.
Proof.
  destruct (familyOf unknownKey) as [fam|] eqn:Hfam.
  - rewrite (safeAddKey_family _ _ _ _ Hfam). simpl.
    destruct (save _ _).1; simpl; rewrite save_password; reflexivity.
  - rewrite safeAddKey_other; done.
Qed.

Lemma safeRemoveKey_password km unknownKey callbacks :
  password (safeRemoveKey km unknownKey callbacks).2 = password km.
Proof.
  destruct (familyOf unknownKey) as [fam|] eqn:Hfam.
  - rewrite (safeRemoveKey_family _ _ _ _ Hfam). simpl.
    destruct (save _ _).1; simpl; rewrite save_password; reflexivity.
  - rewrite safeRemoveKey_other; done.
Qed.

Lemma mutateAll_password km cs : password (mutateAll km cs) = password km.
Proof.
  revert km. induction cs as [|c cs IH]; intros km; [reflexivity|].
  simpl. rewrite IH. destruct c; simpl.
  - apply safeAddKey_password.
  - apply safeRemoveKey_password.
Qed.

End MutationFacts.

Section UnlockClaims.
Context `{Collaborators}.

Implicit Types (km : keyManager) (kr : keyRing) (unknownKey : Key).

(** C1 (amended).  On a first call of Unlock (no password set yet) every
    failing step returns its error: the ORM's or the envelope's error wrapped
    with the step's message when fetching, decrypting or loading fails, and
    the validation error itself.  The password and the key states are not
    changed by a failing call, whatever step failed, and the key ring is not
    changed when fetching or decrypting fails. *)
Theorem Unlock_first_failure km pw :
  password km = "" →
  (∀ cause,
     getEncryptedKeyRing (db (orm km)) = Fail cause →
     (Unlock km pw).1 = Some (ErrWrap cause "unable to get encrypted key ring") ∧
     guarded (Unlock km pw).2 = guarded km) ∧
  (∀ ekr cause,
     getEncryptedKeyRing (db (orm km)) = Ok ekr →
     Decrypt ekr pw = Fail cause →
     (Unlock km pw).1 = Some (ErrWrap cause "unable to decrypt encrypted key ring") ∧
     guarded (Unlock km pw).2 = guarded km) ∧
  (∀ ekr kr cause,
     getEncryptedKeyRing (db (orm km)) = Ok ekr →
     Decrypt ekr pw = Ok kr →
     loadKeyStates (db (orm km)) = Fail cause →
     (Unlock km pw).1 = Some (ErrWrap cause "unable to load key states") ∧
     km_keyStates (Unlock km pw).2 = km_keyStates km ∧
     password (Unlock km pw).2 = password km) ∧
  (∀ ekr kr ks err,
     getEncryptedKeyRing (db (orm km)) = Ok ekr →
     Decrypt ekr pw = Ok kr →
     loadKeyStates (db (orm km)) = Ok ks →
     validate ks kr = Some err →
     (Unlock km pw).1 = Some err ∧
     km_keyStates (Unlock km pw).2 = km_keyStates km ∧
     password (Unlock km pw).2 = password km).
Proof.
  intros Hpw. unfold Unlock, guarded.
  destruct (decide (password km ≠ "")) as [Hne|_]; [congruence|]. simpl.
  split_and!.
  - intros cause Hget. by rewrite Hget.
  - intros ekr cause Hget Hdec. by rewrite Hget, Hdec.
  - intros ekr kr cause Hget Hdec Hload. by rewrite Hget, Hdec, Hload.
  - intros ekr kr ks err Hget Hdec Hload Hval.
    by rewrite Hget, Hdec, Hload, Hval.
Qed.

(** C3.  Once a password is set, and whatever add and remove calls were
    made since, Unlock with the same password returns nil and leaves the
    manager as it is (key ring, key states, password, and the store with the
    calls it received); Unlock with another password returns the mismatch
    error and leaves the manager as it is too. *)
Theorem Unlock_again km cs p2 :
  password km ≠ "" →
  password (mutateAll km cs) = password km ∧
  (p2 = password km →
     Unlock (mutateAll km cs) p2 = (None, mutateAll km cs)) ∧
  (p2 ≠ password km →
     Unlock (mutateAll km cs) p2 = (Some PasswordMismatch, mutateAll km cs)).
Proof.
  intros Hset. pose proof (mutateAll_password km cs) as Hpw.
  split; [exact Hpw|]. unfold Unlock. rewrite Hpw.
  destruct (decide (password km ≠ "")) as [_|Hno]; [|done].
  split; intros Hp2; destruct (decide (p2 ≠ password km)); done.
Qed.

(** C10.  A failing Unlock never assigns the password: the password after
    the call is the one before it, so a manager that was locked is still
    locked.  Conversely the password changes only when Unlock returns nil,
    and then from empty to the password given. *)
Theorem Unlock_failure_stays_locked km pw :
  (∀ err, (Unlock km pw).1 = Some err →
     password (Unlock km pw).2 = password km) ∧
  (∀ err, isLocked km = true → (Unlock km pw).1 = Some err →
     password (Unlock km pw).2 = "" ∧ isLocked (Unlock km pw).2 = true) ∧
  (password (Unlock km pw).2 ≠ password km →
     (Unlock km pw).1 = None ∧ password km = "" ∧
     password (Unlock km pw).2 = pw).
Proof.
  assert (Hkeep : ∀ err, (Unlock km pw).1 = Some err →
            password (Unlock km pw).2 = password km).
  { intros err. unfold Unlock.
    destruct (decide (password km ≠ "")); [destruct (decide (pw ≠ _)); done|].
    simpl. destruct (getEncryptedKeyRing _); [|done].
    destruct (Decrypt _ _); [|done]. simpl.
    destruct (loadKeyStates _); [|done].
    destruct (validate _ _); done. }
  split; [exact Hkeep|]. split.
  - intros err Hl Herr. rewrite isLocked_true in *.
    rewrite (Hkeep err Herr). done.
  - unfold Unlock.
    destruct (decide (password km ≠ "")) as [|Hempty];
      [destruct (decide (pw ≠ _)); done|].
    apply dec_stable in Hempty.
    simpl. destruct (getEncryptedKeyRing _); [|done].
    destruct (Decrypt _ _); [|done]. simpl.
    destruct (loadKeyStates _); [|done].
    destruct (validate _ _); done.
Qed.

End UnlockClaims.

Section MutationClaims.
Context `{Collaborators}.

Implicit Types (km : keyManager) (kr : keyRing) (unknownKey : Key).

(** The entries of a map under one id: at most one, the one looked up. *)
Lemma map_to_list_filter_key (m : gmap string KeyV2) (id : string) (key : KeyV2) :
  m !! id = Some key →
  filter (λ entry, entry.1 = id) (map_to_list m) = [(id, key)].
Proof.
  intros Hlook.
  pose proof (NoDup_fst_map_to_list m) as Hnd.
  apply elem_of_map_to_list in Hlook.
  induction (map_to_list m) as [|[i k] l IH]; [by apply elem_of_nil in Hlook|].
  simpl in Hnd. apply NoDup_cons in Hnd as [Hnotin Hnd].
  apply elem_of_cons in Hlook as [[= <- <-]|Hin].
  - rewrite filter_cons_True by done. f_equal.
    clear IH. induction l as [|[j k'] l IHl]; [done|].
    simpl in Hnotin. apply not_elem_of_cons in Hnotin as [Hne Hnotin].
    apply NoDup_cons in Hnd as [_ Hnd].
    rewrite filter_cons_False by (simpl; congruence). by apply IHl.
  - rewrite filter_cons_False; [by apply IH|].
    simpl. intros ->. apply Hnotin.
    apply list_elem_of_fmap. by exists (id, key).
Qed.

(** C2 (amended).  For an unlocked manager (its key ring is the one that
    Unlock installed, with allocated maps) and a key of a known family whose
    save fails with [err]: safeAddKey of a key whose id is not in the
    family's map returns [err] and leaves the key ring equal to the ring
    before the call; safeRemoveKey of a key that the family's map holds
    under its id returns [err] and leaves the key ring equal to the ring
    before the call. *)
Theorem failed_save_rolls_back km unknownKey fam callbacks err :
  password km ≠ "" →
  familyOf unknownKey = Some fam →
  (familyMap fam (km_keyRing km) !! Key_ID unknownKey = None →
   (save (set_keyRing km
      (setFamilyMap fam (km_keyRing km)
         (<[Key_ID unknownKey := valueOf unknownKey]>
            (familyMap fam (km_keyRing km))))) callbacks).1 = Some err →
   (safeAddKey km unknownKey callbacks).1 = Err err ∧
   km_keyRing (safeAddKey km unknownKey callbacks).2 = km_keyRing km) ∧
  (familyMap fam (km_keyRing km) !! Key_ID unknownKey = Some (valueOf unknownKey) →
   (save (set_keyRing km
      (setFamilyMap fam (km_keyRing km)
         (delete (Key_ID unknownKey) (familyMap fam (km_keyRing km)))))
      callbacks).1 = Some err →
   (safeRemoveKey km unknownKey callbacks).1 = Err err ∧
   km_keyRing (safeRemoveKey km unknownKey callbacks).2 = km_keyRing km).
Proof.
  intros _ Hfam. split; intros Hlook Hsave.
  - rewrite (safeAddKey_family _ _ _ _ Hfam). simpl. rewrite Hsave. simpl.
    split; [reflexivity|]. rewrite save_keyRing. simpl.
    rewrite familyMap_setFamilyMap, setFamilyMap_twice, delete_insert_eq.
    rewrite (delete_id _ _ Hlook). apply setFamilyMap_id.
  - rewrite (safeRemoveKey_family _ _ _ _ Hfam). simpl. rewrite Hsave. simpl.
    split; [reflexivity|]. rewrite save_keyRing. simpl.
    rewrite familyMap_setFamilyMap, setFamilyMap_twice, insert_delete_eq.
    rewrite (insert_id _ _ _ Hlook). apply setFamilyMap_id.
Qed.

(** C8.  A successful safeAddKey of a key whose id is already in its
    family's map replaces the entry of that id: the map holds the new key
    under the id, has the same ids as before, GetAll is as long as before,
    and exactly one entry of the map is under that id. *)
Theorem safeAddKey_overwrites km km' unknownKey fam callbacks old :
  familyOf unknownKey = Some fam →
  familyMap fam (km_keyRing km) !! Key_ID unknownKey = Some old →
  safeAddKey km unknownKey callbacks = (Nil, km') →
  familyMap fam (km_keyRing km')
    = <[Key_ID unknownKey := valueOf unknownKey]> (familyMap fam (km_keyRing km)) ∧
  dom (familyMap fam (km_keyRing km')) = dom (familyMap fam (km_keyRing km)) ∧
  length (GetAll fam (km_keyRing km')) = length (GetAll fam (km_keyRing km)) ∧
  filter (λ entry, entry.1 = Key_ID unknownKey)
         (map_to_list (familyMap fam (km_keyRing km')))
    = [(Key_ID unknownKey, valueOf unknownKey)].
Proof.
  intros Hfam Hold Hadd.
  rewrite (safeAddKey_family _ _ _ _ Hfam) in Hadd. simpl in Hadd.
  destruct (save _ callbacks).1 eqn:Hsave; [done|].
  injection Hadd as <-. rewrite save_keyRing. simpl.
  rewrite familyMap_setFamilyMap.
  split; [reflexivity|]. split; [|split].
  - apply dom_insert_lookup_L. by exists old.
  - unfold GetAll. rewrite !length_fmap, familyMap_setFamilyMap.
    rewrite !length_map_to_list. apply map_size_insert_Some. by exists old.
  - apply map_to_list_filter_key. apply lookup_insert_eq.
Qed.

(** C9.  A key value of none of the five family types makes safeAddKey and
    safeRemoveKey return the unknown-type error with the manager as it was
    (nothing written, nothing saved).  For a key of one of the five family
    types the field name selects the map of the key's family: reading the
    field gives that map, and writing through it changes that map and no
    other. *)
Theorem key_family_dispatch km unknownKey callbacks :
  (∀ typeName key, unknownKey = otherKey typeName key →
     safeAddKey km unknownKey callbacks
       = (Err (ErrNew ("unknown key type: " ++ typeName)), km) ∧
     safeRemoveKey km unknownKey callbacks
       = (Err (ErrNew ("unknown key type: " ++ typeName)), km)) ∧
  (∀ fam, familyOf unknownKey = Some fam →
     ∃ fieldName,
       getFieldNameForKey unknownKey = Ok fieldName ∧
       ∀ kr id v,
         FieldByName kr fieldName = Some (familyMap fam kr) ∧
         ∃ kr',
           SetMapIndex kr fieldName id v = Some kr' ∧
           familyMap fam kr' =
             match v with
             | Some key => <[id := key]> (familyMap fam kr)
             | None => delete id (familyMap fam kr)
             end ∧
           ∀ fam', fam' ≠ fam → familyMap fam' kr' = familyMap fam' kr).
Proof.
  split.
  - intros typeName key ->. split; reflexivity.
  - intros fam Hfam.
    destruct (getFieldNameForKey_family _ _ Hfam) as (fieldName & Hname & Hfield).
    exists fieldName. split; [exact Hname|]. intros kr id v.
    split; [apply Hfield|].
    eexists. split; [exact (SetMapIndex_setFamilyMap _ _ _ kr id v Hfam Hname)|].
    split; [apply familyMap_setFamilyMap|].
    intros fam' Hne. by apply familyMap_setFamilyMap_ne.
Qed.

End MutationClaims.

Section ExecutorClaims.
Context {Conn Tx Mock : Type} (BeginTxx : Conn → Tx).

Import postgres.

(** C7.  SqlxTransaction runs the function directly on a handle that is an
    open transaction, and begins none; on a plain connection it begins a
    transaction, runs the function on it, and commits when the function
    returns nil, rolls back when it returns an error; any other handle is
    rejected with an error and the function is not run, unless
    AllowUnknownQueryerTypeInTransaction is set, in which case the function
    runs on the handle as it is. *)
Theorem SqlxTransaction_dispatch (allow : bool)
    (fc : Queryer Conn Tx Mock → option error) :
  (∀ tx, SqlxTransaction BeginTxx allow (sqlx_Tx tx) fc
         = (fc (sqlx_Tx tx), [Run (sqlx_Tx tx)])) ∧
  (∀ tx, filter isBegin (SqlxTransaction BeginTxx allow (sqlx_Tx tx) fc).2 = []) ∧
  (∀ db, fc (sqlx_Tx (BeginTxx db)) = None →
         SqlxTransaction BeginTxx allow (sqlx_DB db) fc
         = (None, [Begin db; Run (sqlx_Tx (BeginTxx db)); Commit (BeginTxx db)])) ∧
  (∀ db err, fc (sqlx_Tx (BeginTxx db)) = Some err →
         SqlxTransaction BeginTxx allow (sqlx_DB db) fc
         = (Some err,
            [Begin db; Run (sqlx_Tx (BeginTxx db)); Rollback (BeginTxx db)])) ∧
  (∀ q, SqlxTransaction BeginTxx false (unknownQueryer q) fc
        = (Some (ErrNew "invalid db type"), [])) ∧
  (∀ q, SqlxTransaction BeginTxx true (unknownQueryer q) fc
        = (fc (unknownQueryer q), [Run (unknownQueryer q)])).
Proof.
  repeat split.
  - intros db Hfc. simpl. unfold sqlxTransactionQ. by rewrite Hfc.
  - intros db err Hfc. simpl. unfold sqlxTransactionQ. by rewrite Hfc.
Qed.

End ExecutorClaims.

Section MigrateFacts.
Context `{Collaborators}.

Implicit Types (km : keyManager) (kr : keyRing) (keyMap : gmap string KeyV2).

(** The merge loop computes the specification's merge. *)
Lemma migrateKeys_lookup keys : ∀ keyMap id,
  migrateKeys keyMap keys !! id = mergedLookup keyMap keys id.
Proof.
  induction keys as [|key keys IH]; intros keyMap id; simpl.
  - unfold mergedLookup, firstWithID. simpl. by destruct (keyMap !! id).
  - destruct (keyMap !! ID key) as [present|] eqn:Hkey; rewrite IH;
      unfold mergedLookup, firstWithID.
    + destruct (keyMap !! id) eqn:Hid; [done|].
      rewrite filter_cons_False; [done|]. intros E. rewrite E in Hkey. congruence.
    + destruct (decide (ID key = id)) as [<-|Hne].
      * rewrite lookup_insert_eq, Hkey. by rewrite filter_cons_True.
      * rewrite lookup_insert_ne by done.
        destruct (keyMap !! id); [done|]. by rewrite filter_cons_False.
Qed.

Lemma migrateKeys_present keys : ∀ keyMap,
  (∀ key, key ∈ keys → is_Some (keyMap !! ID key)) →
  migrateKeys keyMap keys = keyMap.
Proof.
  induction keys as [|key keys IH]; intros keyMap Hall; simpl; [done|].
  destruct (Hall key) as [present ->]; [by left|].
  apply IH. intros k Hk. apply Hall. by right.
Qed.

Lemma migrateKeys_covers keyMap keys key :
  key ∈ keys → is_Some (migrateKeys keyMap keys !! ID key).
Proof.
  intros Hin. rewrite migrateKeys_lookup. unfold mergedLookup, firstWithID.
  destruct (keyMap !! ID key); [done|].
  apply head_is_Some. intros Hnil.
  eapply (filter_nil_not_elem_of _ _ key); [exact Hnil|done|done].
Qed.

Lemma migrateKeys_idem keyMap keys :
  migrateKeys (migrateKeys keyMap keys) keys = migrateKeys keyMap keys.
Proof. apply migrateKeys_present. intros key. apply migrateKeys_covers. Qed.

Lemma mergedRing_idem kr csaKeys ocrKeys p2pKeys vrfKeys :
  mergedRing (mergedRing kr csaKeys ocrKeys p2pKeys vrfKeys)
             csaKeys ocrKeys p2pKeys vrfKeys
  = mergedRing kr csaKeys ocrKeys p2pKeys vrfKeys.
Proof. unfold mergedRing. simpl. by rewrite !migrateKeys_idem. Qed.

(** A save that returns nil: what it encrypted, and what it left. *)
Lemma save_Nil km callbacks km1 :
  save km callbacks = (None, km1) →
  ∃ ekb,
    Encrypt (km_keyRing km) (password km) (scryptParams km) = Ok ekb ∧
    km1 = called km (saveEncryptedKeyRing (db (orm km)) ekb callbacks).2
            (saveEncryptedKeyRing_call ekb callbacks).
Proof.
  unfold save. destruct (Encrypt _ _ _) as [ekb|]; [|done].
  destruct (saveEncryptedKeyRing _ _ _) as [err d] eqn:Hs.
  intros [= -> <-]. exists ekb. by rewrite Hs.
Qed.


Lemma addEthKeyWithState_Nil km key state km1 :
  addEthKeyWithState km key state = (Nil, km1) →
  save (set_keyRing km
          (set_Eth (km_keyRing km) (<[ID key := key]> (Eth (km_keyRing km)))))
       [ethStateWrite state] = (None, km1).
Proof.
  unfold addEthKeyWithState.
  rewrite (safeAddKey_family _ _ famEth) by done. simpl.
  destruct (save _ _) as [[err|] km2]; simpl; [done|]. by intros [= ->].
Qed.

(** A run of the Eth loop that returns nil. *)
Lemma migrateEthKeys_Nil states : ∀ ethKeys km idx km',
  migrateEthKeys km idx ethKeys states = (Nil, km') →
  ∃ newCalls,
    calls (orm km') = (calls (orm km) ++ newCalls)%list ∧
    Forall (λ c, isSave c = true) newCalls ∧
    omap saveCallbacks newCalls
      = flat_map (λ p, [[ethStateWrite p.2]; []])
          (ethToMigrate (Eth (km_keyRing km)) idx ethKeys states) ∧
    km_keyRing km'
      = set_Eth (km_keyRing km)
          (foldl (λ m p, <[ID p.1 := p.1]> m) (Eth (km_keyRing km))
             (ethToMigrate (Eth (km_keyRing km)) idx ethKeys states)) ∧
    password km' = password km ∧
    scryptParams km' = scryptParams km ∧
    km_keyStates km' = km_keyStates km ∧
    (∀ id, is_Some (Eth (km_keyRing km) !! id) →
           is_Some (Eth (km_keyRing km') !! id)) ∧
    (∀ key, key ∈ ethKeys → is_Some (Eth (km_keyRing km') !! ID key)).
Proof.
  induction ethKeys as [|ethKey ethKeys IH]; intros km idx km'; simpl.
  - intros [= <-]. exists []. rewrite app_nil_r.
    split_and!; try done.
    + by destruct (km_keyRing km).
    + intros key Hin. by apply elem_of_nil in Hin.
  - destruct (Eth (km_keyRing km) !! ID ethKey) as [present|] eqn:Hlook.
    + intros Hrun. destruct (IH _ _ _ Hrun)
        as (newCalls & Hc & Hs & Hcb & Hkr & Hpw & Hsp & Hks & Hmono & Hall).
      exists newCalls. split_and!; try done.
      intros key [->|Hin]%elem_of_cons; [|by apply Hall].
      apply Hmono. by rewrite Hlook.
    + destruct (states !! idx) as [state|]; [|done].
      destruct (addEthKeyWithState km ethKey state) as [[| |] km1] eqn:Hadd;
        try done.
      destruct (save km1 []) as [[err|] km2] eqn:Hsave; [done|].
      intros Hrun.
      apply addEthKeyWithState_Nil, save_Nil in Hadd as (ekb1 & _ & ->).
      apply save_Nil in Hsave as (ekb2 & _ & ->).
      destruct (IH _ _ _ Hrun)
        as (newCalls & Hc & Hs & Hcb & Hkr & Hpw & Hsp & Hks & Hmono & Hall).
      simpl in *.
      exists (saveEncryptedKeyRing_call ekb1 [ethStateWrite state]
              :: saveEncryptedKeyRing_call ekb2 [] :: newCalls).
      split_and!; try done.
      * rewrite Hc, <- !app_assoc. reflexivity.
      * by repeat constructor.
      * rewrite <- Hcb. reflexivity.
      * intros id Hid. apply Hmono.
        destruct (decide (ID ethKey = id)) as [<-|Hne];
          [by rewrite lookup_insert_eq | by rewrite lookup_insert_ne].
      * intros key [->|Hin]%elem_of_cons; [|by apply Hall].
        apply Hmono. by rewrite lookup_insert_eq.
Qed.


End MigrateFacts.

Section MigrateRuns.
Context `{Collaborators}.

Implicit Types (km : keyManager) (kr : keyRing) (keyMap : gmap string KeyV2).

(** [Migrate] on an unlocked manager whose four bulk reads succeed. *)
Lemma Migrate_merge km vrfPssword chainID csaKeys ocrKeys p2pKeys vrfKeys :
  password km ≠ "" →
  csa_GetV1KeysAsV2 (db (orm km)) = Ok csaKeys →
  ocr_GetV1KeysAsV2 (db (orm km)) = Ok ocrKeys →
  p2p_GetV1KeysAsV2 (db (orm km)) = Ok p2pKeys →
  vrf_GetV1KeysAsV2 (db (orm km)) vrfPssword = Ok vrfKeys →
  Migrate km vrfPssword chainID =
    match save (afterMerge km csaKeys ocrKeys p2pKeys vrfKeys) [] with
    | (Some err, km1) => (Err err, km1)
    | (None, km1) =>
        match eth_GetV1KeysAsV2 (db (orm km1)) chainID with
        | Fail err => (Err err, called km1 (db (orm km1)) (GetV1KeysAsV2_call "Eth"))
        | Ok (ethKeys, states) =>
            migrateEthKeys (called km1 (db (orm km1)) (GetV1KeysAsV2_call "Eth"))
              0 ethKeys states
        end
    end.
Proof.
  intros Hpw Hcsa Hocr Hp2p Hvrf. apply isLocked_false in Hpw.
  unfold Migrate. rewrite Hpw. simpl.
  rewrite Hcsa. simpl. rewrite Hocr. simpl. rewrite Hp2p. simpl.
  rewrite Hvrf. simpl.
  match goal with
  | |- context [save ?k []] =>
      replace k with (afterMerge km csaKeys ocrKeys p2pKeys vrfKeys)
  end; [reflexivity|].
  unfold afterMerge, called, set_orm, set_keyRing. simpl.
  by rewrite <- !app_assoc.
Qed.

(** A run of [Migrate] that returns nil, step by step. *)
Lemma Migrate_Nil km vrfPssword chainID km' :
  Migrate km vrfPssword chainID = (Nil, km') →
  ∃ csaKeys ocrKeys p2pKeys vrfKeys ethKeys states km1,
    password km ≠ "" ∧
    csa_GetV1KeysAsV2 (db (orm km)) = Ok csaKeys ∧
    ocr_GetV1KeysAsV2 (db (orm km)) = Ok ocrKeys ∧
    p2p_GetV1KeysAsV2 (db (orm km)) = Ok p2pKeys ∧
    vrf_GetV1KeysAsV2 (db (orm km)) vrfPssword = Ok vrfKeys ∧
    save (afterMerge km csaKeys ocrKeys p2pKeys vrfKeys) [] = (None, km1) ∧
    eth_GetV1KeysAsV2 (db (orm km1)) chainID = Ok (ethKeys, states) ∧
    migrateEthKeys (called km1 (db (orm km1)) (GetV1KeysAsV2_call "Eth"))
      0 ethKeys states = (Nil, km').
Proof.
  intros Hrun.
  assert (Hpw : password km ≠ "").
  { apply isLocked_false. unfold Migrate in Hrun.
    by destruct (isLocked km). }
  destruct (csa_GetV1KeysAsV2 (db (orm km))) as [csaKeys|] eqn:Hcsa;
    [|unfold Migrate in Hrun; apply isLocked_false in Hpw;
      rewrite Hpw in Hrun; simpl in Hrun; by rewrite Hcsa in Hrun].
  destruct (ocr_GetV1KeysAsV2 (db (orm km))) as [ocrKeys|] eqn:Hocr;
    [|unfold Migrate in Hrun; apply isLocked_false in Hpw;
      rewrite Hpw in Hrun; simpl in Hrun; rewrite Hcsa in Hrun;
      simpl in Hrun; by rewrite Hocr in Hrun].
  destruct (p2p_GetV1KeysAsV2 (db (orm km))) as [p2pKeys|] eqn:Hp2p;
    [|unfold Migrate in Hrun; apply isLocked_false in Hpw;
      rewrite Hpw in Hrun; simpl in Hrun; rewrite Hcsa in Hrun;
      simpl in Hrun; rewrite Hocr in Hrun; simpl in Hrun;
      by rewrite Hp2p in Hrun].
  destruct (vrf_GetV1KeysAsV2 (db (orm km)) vrfPssword) as [vrfKeys|] eqn:Hvrf;
    [|unfold Migrate in Hrun; apply isLocked_false in Hpw;
      rewrite Hpw in Hrun; simpl in Hrun; rewrite Hcsa in Hrun;
      simpl in Hrun; rewrite Hocr in Hrun; simpl in Hrun;
      rewrite Hp2p in Hrun; simpl in Hrun; by rewrite Hvrf in Hrun].
  rewrite (Migrate_merge _ _ _ _ _ _ _ Hpw Hcsa Hocr Hp2p Hvrf) in Hrun.
  destruct (save _ []) as [[err|] km1] eqn:Hsave; [done|].
  destruct (eth_GetV1KeysAsV2 _ _) as [[ethKeys states]|] eqn:Heth; [|done].
  by exists csaKeys, ocrKeys, p2pKeys, vrfKeys, ethKeys, states, km1.
Qed.

End MigrateRuns.

Section StoreFrame.
Context `{Collaborators} {A : Type} (f : DB → A).
Hypothesis save_keeps : ∀ d ekb callbacks,
  f (saveEncryptedKeyRing d ekb callbacks).2 = f d.

Implicit Types (km : keyManager).




End StoreFrame.

Section MigrateClaims.
Context `{Collaborators}.

Implicit Types (km : keyManager) (kr : keyRing) (keyMap : gmap string KeyV2).

(** C4 (amended).  A run of Migrate that returns nil reads the legacy keys
    of CSA, OCR, P2P and VRF in that order; in each of these families an id
    of the ring keeps its key and any other id gets the first legacy key
    that carries it, in memory only; then comes exactly one save, of the
    merged ring and without extra writes; then the legacy Eth keys are read,
    and each of them whose id is not yet in the ring is added by
    addEthKeyWithState, whose save carries the write of that key's state,
    and is followed by a second save without extra writes: two saves for
    each migrated Eth key, and no other call. *)
Theorem Migrate_order_and_saves km vrfPssword chainID km' :
  Migrate km vrfPssword chainID = (Nil, km') →
  ∃ csaKeys ocrKeys p2pKeys vrfKeys ethKeys states d ekb ethCalls,
    csa_GetV1KeysAsV2 (db (orm km)) = Ok csaKeys ∧
    ocr_GetV1KeysAsV2 (db (orm km)) = Ok ocrKeys ∧
    p2p_GetV1KeysAsV2 (db (orm km)) = Ok p2pKeys ∧
    vrf_GetV1KeysAsV2 (db (orm km)) vrfPssword = Ok vrfKeys ∧
    eth_GetV1KeysAsV2 d chainID = Ok (ethKeys, states) ∧
    (∀ id, CSA (km_keyRing km') !! id
           = mergedLookup (CSA (km_keyRing km)) csaKeys id) ∧
    (∀ id, OCR (km_keyRing km') !! id
           = mergedLookup (OCR (km_keyRing km)) ocrKeys id) ∧
    (∀ id, P2P (km_keyRing km') !! id
           = mergedLookup (P2P (km_keyRing km)) p2pKeys id) ∧
    (∀ id, VRF (km_keyRing km') !! id
           = mergedLookup (VRF (km_keyRing km)) vrfKeys id) ∧
    Encrypt (mergedRing (km_keyRing km) csaKeys ocrKeys p2pKeys vrfKeys)
            (password km) (scryptParams km) = Ok ekb ∧
    calls (orm km')
      = (calls (orm km)
         ++ [GetV1KeysAsV2_call "CSA"; GetV1KeysAsV2_call "OCR";
             GetV1KeysAsV2_call "P2P"; GetV1KeysAsV2_call "VRF";
             saveEncryptedKeyRing_call ekb [];
             GetV1KeysAsV2_call "Eth"]
         ++ ethCalls)%list ∧
    Forall (λ c, isSave c = true) ethCalls ∧
    omap saveCallbacks ethCalls
      = flat_map (λ p, [[ethStateWrite p.2]; []])
          (ethToMigrate (Eth (km_keyRing km)) 0 ethKeys states) ∧
    Eth (km_keyRing km')
      = foldl (λ m p, <[ID p.1 := p.1]> m) (Eth (km_keyRing km))
          (ethToMigrate (Eth (km_keyRing km)) 0 ethKeys states).
Proof.
  intros Hrun.
  destruct (Migrate_Nil _ _ _ _ Hrun)
    as (csaKeys & ocrKeys & p2pKeys & vrfKeys & ethKeys & states & km1
        & Hpw & Hcsa & Hocr & Hp2p & Hvrf & Hsave & Heth & Hloop).
  apply save_Nil in Hsave as (ekb & Henc & ->).
  apply migrateEthKeys_Nil in Hloop
    as (ethCalls & Hc & Hs & Hcb & Hkr & _).
  simpl in *.
  eexists csaKeys, ocrKeys, p2pKeys, vrfKeys, ethKeys, states, _, ekb, ethCalls.
  split_and!; try done; try exact Heth;
    try (intros id; rewrite Hkr; simpl; apply migrateKeys_lookup).
  - rewrite Hc, <- !app_assoc. reflexivity.
  - by rewrite Hkr.
Qed.


(** C6 (amended).  When the read of a family's legacy keys fails, Migrate on
    an unlocked manager returns at once with the error of that read itself,
    neither wrapped nor marked with the family; the maps of the failing
    family and of all families after it are as before the call, and no later
    family is read and nothing more is saved. *)
Theorem Migrate_fetch_failure km vrfPssword chainID err :
  password km ≠ "" →
  (csa_GetV1KeysAsV2 (db (orm km)) = Fail err →
     Migrate km vrfPssword chainID
     = (Err err, called km (db (orm km)) (GetV1KeysAsV2_call "CSA"))) ∧
  (∀ csaKeys,
     csa_GetV1KeysAsV2 (db (orm km)) = Ok csaKeys →
     ocr_GetV1KeysAsV2 (db (orm km)) = Fail err →
     (Migrate km vrfPssword chainID).1 = Err err ∧
     km_keyRing (Migrate km vrfPssword chainID).2
       = set_CSA (km_keyRing km) (migrateKeys (CSA (km_keyRing km)) csaKeys) ∧
     calls (orm (Migrate km vrfPssword chainID).2)
       = (calls (orm km)
          ++ [GetV1KeysAsV2_call "CSA"; GetV1KeysAsV2_call "OCR"])%list) ∧
  (∀ csaKeys ocrKeys,
     csa_GetV1KeysAsV2 (db (orm km)) = Ok csaKeys →
     ocr_GetV1KeysAsV2 (db (orm km)) = Ok ocrKeys →
     p2p_GetV1KeysAsV2 (db (orm km)) = Fail err →
     (Migrate km vrfPssword chainID).1 = Err err ∧
     km_keyRing (Migrate km vrfPssword chainID).2
       = set_OCR
           (set_CSA (km_keyRing km) (migrateKeys (CSA (km_keyRing km)) csaKeys))
           (migrateKeys (OCR (km_keyRing km)) ocrKeys) ∧
     calls (orm (Migrate km vrfPssword chainID).2)
       = (calls (orm km)
          ++ [GetV1KeysAsV2_call "CSA"; GetV1KeysAsV2_call "OCR";
              GetV1KeysAsV2_call "P2P"])%list) ∧
  (∀ csaKeys ocrKeys p2pKeys,
     csa_GetV1KeysAsV2 (db (orm km)) = Ok csaKeys →
     ocr_GetV1KeysAsV2 (db (orm km)) = Ok ocrKeys →
     p2p_GetV1KeysAsV2 (db (orm km)) = Ok p2pKeys →
     vrf_GetV1KeysAsV2 (db (orm km)) vrfPssword = Fail err →
     (Migrate km vrfPssword chainID).1 = Err err ∧
     km_keyRing (Migrate km vrfPssword chainID).2
       = set_P2P
           (set_OCR
              (set_CSA (km_keyRing km) (migrateKeys (CSA (km_keyRing km)) csaKeys))
              (migrateKeys (OCR (km_keyRing km)) ocrKeys))
           (migrateKeys (P2P (km_keyRing km)) p2pKeys) ∧
     calls (orm (Migrate km vrfPssword chainID).2)
       = (calls (orm km)
          ++ [GetV1KeysAsV2_call "CSA"; GetV1KeysAsV2_call "OCR";
              GetV1KeysAsV2_call "P2P"; GetV1KeysAsV2_call "VRF"])%list) ∧
  (∀ csaKeys ocrKeys p2pKeys vrfKeys km1,
     csa_GetV1KeysAsV2 (db (orm km)) = Ok csaKeys →
     ocr_GetV1KeysAsV2 (db (orm km)) = Ok ocrKeys →
     p2p_GetV1KeysAsV2 (db (orm km)) = Ok p2pKeys →
     vrf_GetV1KeysAsV2 (db (orm km)) vrfPssword = Ok vrfKeys →
     save (afterMerge km csaKeys ocrKeys p2pKeys vrfKeys) [] = (None, km1) →
     eth_GetV1KeysAsV2 (db (orm km1)) chainID = Fail err →
     Migrate km vrfPssword chainID
       = (Err err, called km1 (db (orm km1)) (GetV1KeysAsV2_call "Eth")) ∧
     Eth (km_keyRing km1) = Eth (km_keyRing km)).
Proof.
  intros Hpw. pose proof Hpw as Hunlocked. apply isLocked_false in Hunlocked.
  split_and!.
  - intros Hcsa. unfold Migrate. rewrite Hunlocked. simpl. by rewrite Hcsa.
  - intros csaKeys Hcsa Hocr. unfold Migrate. rewrite Hunlocked. simpl.
    rewrite Hcsa. simpl. rewrite Hocr. simpl.
    split_and!; try done. by rewrite <- !app_assoc.
  - intros csaKeys ocrKeys Hcsa Hocr Hp2p. unfold Migrate.
    rewrite Hunlocked. simpl. rewrite Hcsa. simpl. rewrite Hocr. simpl.
    rewrite Hp2p. simpl. split_and!; try done. by rewrite <- !app_assoc.
  - intros csaKeys ocrKeys p2pKeys Hcsa Hocr Hp2p Hvrf. unfold Migrate.
    rewrite Hunlocked. simpl. rewrite Hcsa. simpl. rewrite Hocr. simpl.
    rewrite Hp2p. simpl. rewrite Hvrf. simpl.
    split_and!; try done. by rewrite <- !app_assoc.
  - intros csaKeys ocrKeys p2pKeys vrfKeys km1 Hcsa Hocr Hp2p Hvrf Hsave Heth.
    rewrite (Migrate_merge _ _ _ _ _ _ _ Hpw Hcsa Hocr Hp2p Hvrf).
    rewrite Hsave, Heth. split; [done|].
    pose proof (save_keyRing (afterMerge km csaKeys ocrKeys p2pKeys vrfKeys) [])
      as Hkeep.
    rewrite Hsave in Hkeep. simpl in Hkeep. by rewrite Hkeep.
Qed.

End MigrateClaims.

(** * The claims on the store kept in memory *)

(** A first Unlock with a wrong password: the envelope's error, wrapped, and
    the guarded state as before. *)
Lemma Unlock_first_failure_witness :
  password memstore.locked = "" ∧
  (Unlock memstore.locked "wrong").1
    = Some (ErrWrap memstore.ErrDecrypt "unable to decrypt encrypted key ring") ∧
  guarded (Unlock memstore.locked "wrong").2 = guarded memstore.locked.
Proof.
  split; [reflexivity|].
  destruct (Unlock_first_failure memstore.locked "wrong" eq_refl)
    as (_ & Hdecrypt & _).
  eapply Hdecrypt; reflexivity.
Defined.

(** C1 as stated fails: the stored ring decrypts, a state row names a key
    that the ring does not hold, validation fails, and the key ring of the
    manager is then the decrypted ring and no longer the empty ring it was
    before the call. *)
Lemma Unlock_validation_failure_changes_ring :
  password memstore.unvalidated = "" ∧
  (Unlock memstore.unvalidated "pw1").1
    = Some (ErrNew "key state references a key that is not in the key ring") ∧
  km_keyRing memstore.unvalidated = newKeyRing ∧
  km_keyRing (Unlock memstore.unvalidated "pw1").2
    = memstore.ringEth {[ "k1" := memstore.k1 ]} ∧
  guarded (Unlock memstore.unvalidated "pw1").2 ≠ guarded memstore.unvalidated.
Proof.
  split_and!; try (vm_compute; reflexivity).
  intros E. apply (f_equal (λ g, Eth g.1.1 !! "k1")) in E.
  vm_compute in E. discriminate E.
Qed.

(** A second Unlock after an add and a remove. *)
Lemma Unlock_again_witness :
  password memstore.holdsK1' ≠ "" ∧
  Unlock (mutateAll memstore.holdsK1'
            [addKey (ethkey_KeyV2 memstore.k2) [];
             removeKey (ethkey_KeyV2 memstore.k1) []]) "pw1"
    = (None,
       mutateAll memstore.holdsK1'
         [addKey (ethkey_KeyV2 memstore.k2) [];
          removeKey (ethkey_KeyV2 memstore.k1) []]) ∧
  Unlock (mutateAll memstore.holdsK1'
            [addKey (ethkey_KeyV2 memstore.k2) [];
             removeKey (ethkey_KeyV2 memstore.k1) []]) "pw2"
    = (Some PasswordMismatch,
       mutateAll memstore.holdsK1'
         [addKey (ethkey_KeyV2 memstore.k2) [];
          removeKey (ethkey_KeyV2 memstore.k1) []]).
Proof.
  assert (Hset : password memstore.holdsK1' ≠ "") by (simpl; discriminate).
  split; [exact Hset|].
  destruct (Unlock_again memstore.holdsK1'
              [addKey (ethkey_KeyV2 memstore.k2) [];
               removeKey (ethkey_KeyV2 memstore.k1) []] "pw1" Hset)
    as (_ & Hsame & _).
  destruct (Unlock_again memstore.holdsK1'
              [addKey (ethkey_KeyV2 memstore.k2) [];
               removeKey (ethkey_KeyV2 memstore.k1) []] "pw2" Hset)
    as (_ & _ & Hother).
  split; [apply Hsame; reflexivity | apply Hother; simpl; discriminate].
Defined.

(** A failing first Unlock leaves the manager locked. *)
Lemma Unlock_failure_stays_locked_witness :
  isLocked memstore.locked = true ∧
  (Unlock memstore.locked "wrong").1
    = Some (ErrWrap memstore.ErrDecrypt "unable to decrypt encrypted key ring") ∧
  password (Unlock memstore.locked "wrong").2 = "" ∧
  isLocked (Unlock memstore.locked "wrong").2 = true.
Proof.
  split; [reflexivity|]. split; [reflexivity|].
  destruct (Unlock_failure_stays_locked memstore.locked "wrong")
    as (_ & Hlocked & _).
  eapply Hlocked; reflexivity.
Defined.

(** A failed add of a new key and a failed remove of a held key leave the
    ring as it was. *)
Lemma failed_save_rolls_back_witness :
  password memstore.holdsK1 ≠ "" ∧
  familyOf (ethkey_KeyV2 memstore.k2) = Some famEth ∧
  Eth (km_keyRing memstore.holdsK1) !! "k2" = None ∧
  (safeAddKey memstore.holdsK1 (ethkey_KeyV2 memstore.k2) []).1
    = Err memstore.ErrStore ∧
  km_keyRing (safeAddKey memstore.holdsK1 (ethkey_KeyV2 memstore.k2) []).2
    = km_keyRing memstore.holdsK1.
Proof.
  assert (Hset : password memstore.holdsK1 ≠ "") by (simpl; discriminate).
  split; [exact Hset|]. split; [reflexivity|]. split; [reflexivity|].
  destruct (failed_save_rolls_back memstore.holdsK1
              (ethkey_KeyV2 memstore.k2) famEth [] memstore.ErrStore
              Hset eq_refl)
    as (Hadd & _).
  apply Hadd; reflexivity.
Defined.

(** C2 as stated fails: the ring holds k1 and the store rejects writes.
    Adding k1 again returns the store's error and the rollback deletes k1,
    so the Eth map is empty afterwards; removing k2, which the ring does not
    hold, returns the store's error and the rollback inserts k2. *)
Lemma failed_add_of_held_key_drops_it :
  familyOf (ethkey_KeyV2 memstore.k1) = Some famEth ∧
  password memstore.holdsK1 ≠ "" ∧
  Eth (km_keyRing memstore.holdsK1) = {[ "k1" := memstore.k1 ]} ∧
  (safeAddKey memstore.holdsK1 (ethkey_KeyV2 memstore.k1) []).1
    = Err memstore.ErrStore ∧
  Eth (km_keyRing (safeAddKey memstore.holdsK1 (ethkey_KeyV2 memstore.k1) []).2)
    = ∅ ∧
  km_keyRing (safeAddKey memstore.holdsK1 (ethkey_KeyV2 memstore.k1) []).2
    ≠ km_keyRing memstore.holdsK1 ∧
  (safeRemoveKey memstore.holdsK1 (ethkey_KeyV2 memstore.k2) []).1
    = Err memstore.ErrStore ∧
  Eth (km_keyRing (safeRemoveKey memstore.holdsK1 (ethkey_KeyV2 memstore.k2) []).2)
    !! "k2" = Some memstore.k2 ∧
  km_keyRing (safeRemoveKey memstore.holdsK1 (ethkey_KeyV2 memstore.k2) []).2
    ≠ km_keyRing memstore.holdsK1.
Proof.
  split_and!; try (vm_compute; reflexivity).
  - simpl. discriminate.
  - intros E. apply (f_equal (λ kr, Eth kr !! "k1")) in E.
    vm_compute in E. discriminate E.
  - intros E. apply (f_equal (λ kr, Eth kr !! "k2")) in E.
    vm_compute in E. discriminate E.
Qed.

(** Adding k1 in a rotated form over the held k1. *)
Lemma safeAddKey_overwrites_witness :
  Eth (km_keyRing memstore.holdsK1') !! "k1" = Some memstore.k1 ∧
  (safeAddKey memstore.holdsK1' (ethkey_KeyV2 memstore.k1') []).1 = Nil ∧
  Eth (km_keyRing (safeAddKey memstore.holdsK1' (ethkey_KeyV2 memstore.k1') []).2)
    = <["k1" := memstore.k1']> (Eth (km_keyRing memstore.holdsK1')) ∧
  length (GetAll famEth
            (km_keyRing
               (safeAddKey memstore.holdsK1' (ethkey_KeyV2 memstore.k1') []).2))
    = length (GetAll famEth (km_keyRing memstore.holdsK1')).
Proof.
  split; [reflexivity|]. split; [reflexivity|].
  destruct (safeAddKey_overwrites memstore.holdsK1'
              (safeAddKey memstore.holdsK1' (ethkey_KeyV2 memstore.k1') []).2
              (ethkey_KeyV2 memstore.k1') famEth [] memstore.k1
              eq_refl eq_refl eq_refl)
    as (Hmap & _ & Hlen & _).
  split; [exact Hmap | exact Hlen].
Defined.

(** A value of a foreign type, and an OCR key. *)
Lemma key_family_dispatch_witness :
  safeAddKey memstore.holdsK1' (otherKey "*ethkey.KeyV2" memstore.k2) []
    = (Err (ErrNew "unknown key type: *ethkey.KeyV2"), memstore.holdsK1') ∧
  ∃ fieldName,
    getFieldNameForKey (ocrkey_KeyV2 memstore.k3) = Ok fieldName ∧
    FieldByName (km_keyRing memstore.holdsK1') fieldName
      = Some (OCR (km_keyRing memstore.holdsK1')).
Proof.
  destruct (key_family_dispatch memstore.holdsK1'
              (otherKey "*ethkey.KeyV2" memstore.k2) []) as (Hother & _).
  destruct (key_family_dispatch memstore.holdsK1'
              (ocrkey_KeyV2 memstore.k3) []) as (_ & Hfamily).
  split; [apply (Hother _ _ eq_refl)|].
  destruct (Hfamily famOCR eq_refl) as (fieldName & Hname & Hfield).
  exists fieldName. split; [exact Hname|].
  apply (Hfield (km_keyRing memstore.holdsK1') "" None).
Defined.

(** The executor on a connection: commit when the function returns nil,
    rollback when it fails. *)
Lemma SqlxTransaction_dispatch_witness :
  memstore.failsOn8 (postgres.sqlx_Tx (memstore.beginTx 1)) = None ∧
  postgres.SqlxTransaction memstore.beginTx false (postgres.sqlx_DB 1)
    memstore.failsOn8
    = (None, [postgres.Begin 1; postgres.Run (postgres.sqlx_Tx 2);
              postgres.Commit 2]) ∧
  postgres.SqlxTransaction memstore.beginTx false (postgres.sqlx_DB 7)
    memstore.failsOn8
    = (Some memstore.ErrQuery,
       [postgres.Begin 7; postgres.Run (postgres.sqlx_Tx 8);
        postgres.Rollback 8]).
Proof.
  destruct (SqlxTransaction_dispatch (Mock := unit) memstore.beginTx false
              memstore.failsOn8) as (_ & _ & Hcommit & Hrollback & _).
  split; [reflexivity|].
  split; [apply Hcommit; reflexivity | apply Hrollback; reflexivity].
Defined.

(** One run of Migrate over a CSA, a P2P and an Eth legacy key. *)
Lemma Migrate_order_and_saves_witness :
  Migrate memstore.fresh "" 1 = (Nil, memstore.migrated) ∧
  ∃ ekb ethCalls,
    calls (orm memstore.migrated)
      = (calls (orm memstore.fresh)
         ++ [GetV1KeysAsV2_call "CSA"; GetV1KeysAsV2_call "OCR";
             GetV1KeysAsV2_call "P2P"; GetV1KeysAsV2_call "VRF";
             saveEncryptedKeyRing_call ekb [];
             GetV1KeysAsV2_call "Eth"]
         ++ ethCalls)%list ∧
    Forall (λ c, isSave c = true) ethCalls.
Proof.
  assert (Hnil : (Migrate memstore.fresh "" 1).1 = Nil)
    by (vm_compute; reflexivity).
  assert (Hrun : Migrate memstore.fresh "" 1 = (Nil, memstore.migrated)).
  { unfold memstore.migrated.
    destruct (Migrate memstore.fresh "" 1) as [res km']. simpl in Hnil.
    by rewrite Hnil. }
  split; [exact Hrun|].
  destruct (Migrate_order_and_saves memstore.fresh "" 1 memstore.migrated Hrun)
    as (csaKeys & ocrKeys & p2pKeys & vrfKeys & ethKeys & states & d & ekb
        & ethCalls & _ & _ & _ & _ & _ & _ & _ & _ & _ & _ & Hcalls & Hsaves & _).
  exists ekb, ethCalls. split; [exact Hcalls | exact Hsaves].
Defined.

(** C4 as stated fails: with one legacy Eth key to migrate, the store
    receives three saves; the bulk save, the save of addEthKeyWithState with
    the write of the key's state, and one more save without any write.  The
    claim has two. *)
Lemma Migrate_saves_twice_per_eth_key :
  password memstore.fresh ≠ "" ∧
  eth_GetV1KeysAsV2 (db (orm memstore.fresh)) 1
    = Ok ([memstore.k2], [("k2", 1%Z)]) ∧
  (Migrate memstore.fresh "" 1).1 = Nil ∧
  omap saveCallbacks (calls (orm (Migrate memstore.fresh "" 1).2))
    = [[]; [("k2", 1%Z)]; []] ∧
  omap saveCallbacks (calls (orm (Migrate memstore.fresh "" 1).2))
    ≠ [[]; [("k2", 1%Z)]].
Proof.
  split_and!; try (vm_compute; reflexivity).
  - simpl. discriminate.
  - vm_compute. discriminate.
Qed.



(** A legacy OCR table that cannot be read. *)
Lemma Migrate_fetch_failure_witness :
  password memstore.ocrBroken ≠ "" ∧
  (Migrate memstore.ocrBroken "" 1).1 = Err memstore.ErrLegacy ∧
  km_keyRing (Migrate memstore.ocrBroken "" 1).2
    = set_CSA newKeyRing (migrateKeys ∅ [memstore.k1]) ∧
  calls (orm (Migrate memstore.ocrBroken "" 1).2)
    = [GetV1KeysAsV2_call "CSA"; GetV1KeysAsV2_call "OCR"].
Proof.
  assert (Hset : password memstore.ocrBroken ≠ "") by (simpl; discriminate).
  split; [exact Hset|].
  destruct (Migrate_fetch_failure memstore.ocrBroken "" 1 memstore.ErrLegacy Hset)
    as (_ & Hocr & _).
  apply (Hocr [memstore.k1]); reflexivity.
Defined.

(** C6 as stated fails: the error that Migrate returns is the error of the
    failing read itself, not an error that wraps it, and it is the same
    whether the CSA read or the OCR read failed, so it does not tell which
    family failed. *)
Lemma Migrate_returns_bare_fetch_error :
  csa_GetV1KeysAsV2 (db (orm memstore.csaBroken)) = Fail memstore.ErrLegacy ∧
  ocr_GetV1KeysAsV2 (db (orm memstore.ocrBroken)) = Fail memstore.ErrLegacy ∧
  csa_GetV1KeysAsV2 (db (orm memstore.ocrBroken)) = Ok [memstore.k1] ∧
  (Migrate memstore.csaBroken "" 1).1 = Err memstore.ErrLegacy ∧
  (Migrate memstore.ocrBroken "" 1).1 = Err memstore.ErrLegacy ∧
  (∀ msg, (Migrate memstore.csaBroken "" 1).1
          ≠ Err (ErrWrap memstore.ErrLegacy msg)) ∧
  ¬ ∃ familyName : outcome → string,
      familyName (Migrate memstore.csaBroken "" 1).1 = "CSA" ∧
      familyName (Migrate memstore.ocrBroken "" 1).1 = "OCR".
Proof.
  split_and!; try (vm_compute; reflexivity).
  - intros msg. vm_compute. discriminate.
  - intros (familyName & Hcsa & Hocr).
    assert (E : (Migrate memstore.csaBroken "" 1).1
                = (Migrate memstore.ocrBroken "" 1).1) by (vm_compute; reflexivity).
    rewrite E in Hcsa. rewrite Hcsa in Hocr. discriminate Hocr.
Qed.

(** * Further properties of the key manager

    As above, the maps of a key ring are allocated maps, as [newKeyRing] and
    [Decrypt] make them; a write to a nil map, which panics in Go, is outside
    the model. *)

Section UnlockFacts.
Context `{Collaborators}.

Implicit Types (km : keyManager) (kr : keyRing).

(** A failing Unlock leaves the password and the store as they were. *)
Lemma Unlock_error_keeps km pw err :
  (Unlock km pw).1 = Some err →
  password (Unlock km pw).2 = password km ∧
  db (orm (Unlock km pw).2) = db (orm km).
Proof.
  unfold Unlock.
  destruct (decide (password km ≠ "")); [destruct (decide (pw ≠ _)); done|].
  simpl. destruct (getEncryptedKeyRing _); [|done].
  destruct (Decrypt _ _); [|done]. simpl.
  destruct (loadKeyStates _); [|done].
  destruct (validate _ _); done.
Qed.

(** X1.  On a manager without password, when the encrypted ring is found,
    decrypts, and the key states load and validate, Unlock returns nil and
    the guarded state is the decrypted ring, the loaded states and the
    password given, whatever ring and states the manager held before; the
    store is read twice (the ring, then the states) and not changed. *)
Theorem Unlock_first_success km pw ekr kr ks :
  password km = "" →
  getEncryptedKeyRing (db (orm km)) = Ok ekr →
  Decrypt ekr pw = Ok kr →
  loadKeyStates (db (orm km)) = Ok ks →
  validate ks kr = None →
  (Unlock km pw).1 = None ∧
  guarded (Unlock km pw).2 = (kr, ks, pw) ∧
  db (orm (Unlock km pw).2) = db (orm km) ∧
  calls (orm (Unlock km pw).2)
    = (calls (orm km) ++ [getEncryptedKeyRing_call; loadKeyStates_call])%list.
Proof.
  intros Hpw Hget Hdec Hload Hval. unfold Unlock, guarded.
  destruct (decide (password km ≠ "")) as [Hne|_]; [congruence|]. simpl.
  rewrite Hget, Hdec. simpl. rewrite Hload, Hval. simpl.
  split_and!; try done. by rewrite <- app_assoc.
Qed.

(** X2.  A failed Unlock does not spoil a later one: after any failing
    Unlock on a manager without password, an Unlock whose four steps succeed
    on the store returns nil and leaves the same guarded state as it would
    have left at first. *)
Theorem Unlock_retry km wrong err pw ekr kr ks :
  password km = "" →
  (Unlock km wrong).1 = Some err →
  getEncryptedKeyRing (db (orm km)) = Ok ekr →
  Decrypt ekr pw = Ok kr →
  loadKeyStates (db (orm km)) = Ok ks →
  validate ks kr = None →
  (Unlock (Unlock km wrong).2 pw).1 = None ∧
  guarded (Unlock (Unlock km wrong).2 pw).2 = (kr, ks, pw) ∧
  guarded (Unlock (Unlock km wrong).2 pw).2 = guarded (Unlock km pw).2.
Proof.
  intros Hpw Hfail Hget Hdec Hload Hval.
  destruct (Unlock_error_keeps _ _ _ Hfail) as (Hpw' & Hdb).
  set (km1 := (Unlock km wrong).2) in *.
  assert (Hpw1 : password km1 = "") by congruence.
  assert (Hfirst : ∀ km0, password km0 = "" → db (orm km0) = db (orm km) →
            (Unlock km0 pw).1 = None ∧ guarded (Unlock km0 pw).2 = (kr, ks, pw)).
  { intros km0 Hpw0 Hdb0. unfold Unlock, guarded.
    destruct (decide (password km0 ≠ "")) as [Hne|_]; [congruence|]. simpl.
    rewrite Hdb0, Hget, Hdec. simpl. rewrite ?Hdb0, Hload, Hval. done. }
  destruct (Hfirst km1 Hpw1 Hdb) as (Hnil & Hstate).
  destruct (Hfirst km Hpw eq_refl) as (_ & Hstate0).
  split_and!; congruence.
Qed.

(** X3.  Unlock never writes: whatever it returns, the store is as before,
    no save is recorded, and the calls it adds are a prefix of the two reads
    (the encrypted ring, then the key states). *)
Theorem Unlock_reads_only km pw :
  db (orm (Unlock km pw).2) = db (orm km) ∧
  scryptParams (Unlock km pw).2 = scryptParams km ∧
  ∃ reads,
    calls (orm (Unlock km pw).2) = (calls (orm km) ++ reads)%list ∧
    reads `prefix_of` [getEncryptedKeyRing_call; loadKeyStates_call] ∧
    filter (λ c, isSave c = true) reads = [].
Proof.
  unfold Unlock.
  destruct (decide (password km ≠ "")).
  { destruct (decide (pw ≠ _)); simpl; (split_and!; try done);
      exists []; rewrite app_nil_r; (split_and!; try done);
      apply prefix_nil. }
  simpl. destruct (getEncryptedKeyRing _).
  2:{ split_and!; try done. exists [getEncryptedKeyRing_call].
      split_and!; try done. by exists [loadKeyStates_call]. }
  destruct (Decrypt _ _).
  2:{ split_and!; try done. exists [getEncryptedKeyRing_call].
      split_and!; try done. by exists [loadKeyStates_call]. }
  simpl.
  assert (Hboth : ∀ l : list (ormCall encryptedKeyRing callback),
            ((l ++ [getEncryptedKeyRing_call]) ++ [loadKeyStates_call])%list
            = (l ++ [getEncryptedKeyRing_call; loadKeyStates_call])%list)
    by (intros l; by rewrite <- app_assoc).
  destruct (loadKeyStates _); [destruct (validate _ _)|]; simpl;
    (split_and!; try done);
    exists [getEncryptedKeyRing_call; loadKeyStates_call];
    (split_and!; try done); apply Hboth.
Qed.

(** X4.  Whenever Unlock returns nil the manager's password is the password
    given.  So the manager is unlocked afterwards exactly when that password
    is not empty: Unlock with the empty password can succeed and still leave
    the manager locked.  With a non-empty password a repeated Unlock returns
    nil and changes nothing, and any other password is refused. *)
Theorem Unlock_success_password km pw km' :
  Unlock km pw = (None, km') →
  password km' = pw ∧
  (isLocked km' = true ↔ pw = "") ∧
  (pw ≠ "" → Unlock km' pw = (None, km')) ∧
  (pw ≠ "" → ∀ other, other ≠ pw →
     Unlock km' other = (Some PasswordMismatch, km')).
Proof.
  intros Hrun.
  assert (Hpw : password km' = pw).
  { revert Hrun. unfold Unlock.
    destruct (decide (password km ≠ "")) as [Hset|Hno].
    - destruct (decide (pw ≠ password km)) as [|Heq]; [done|].
      apply dec_stable in Heq. by intros [= <-].
    - simpl. destruct (getEncryptedKeyRing _); [|done].
      destruct (Decrypt _ _); [|done]. simpl.
      destruct (loadKeyStates _); [|done].
      destruct (validate _ _); [done|]. by intros [= <-]. }
  split; [exact Hpw|]. split; [by rewrite isLocked_true, Hpw|].
  split.
  - intros Hne. unfold Unlock. rewrite Hpw.
    destruct (decide (pw ≠ "")); [|done]. by destruct (decide (pw ≠ pw)).
  - intros Hne other Hother. unfold Unlock. rewrite Hpw.
    destruct (decide (pw ≠ "")); [|done]. by destruct (decide (other ≠ pw)).
Qed.

(** X5.  Migrate on a locked manager returns ErrLocked and leaves the
    manager as it is: no legacy table is read and nothing is saved.  This is
    so in particular after an Unlock that failed on a locked manager. *)
Theorem Migrate_locked km vrfPssword chainID :
  (isLocked km = true →
     Migrate km vrfPssword chainID = (Err ErrLocked, km)) ∧
  (∀ pw err, isLocked km = true → (Unlock km pw).1 = Some err →
     Migrate (Unlock km pw).2 vrfPssword chainID
       = (Err ErrLocked, (Unlock km pw).2)).
Proof.
  assert (Hlocked : ∀ km0 : keyManager, isLocked km0 = true →
            Migrate km0 vrfPssword chainID = (Err ErrLocked, km0)).
  { intros km0 Hl. unfold Migrate. by rewrite Hl. }
  split; [apply Hlocked|].
  intros pw err Hl Hfail. apply Hlocked.
  destruct (Unlock_error_keeps _ _ _ Hfail) as (Hpw & _).
  apply isLocked_true. apply isLocked_true in Hl. congruence.
Qed.

End UnlockFacts.

Section MutationExtras.
Context `{Collaborators}.

Implicit Types (km : keyManager) (kr : keyRing) (unknownKey : Key).

(** Everything [save] does, by the outcome of the encryption. *)
Lemma save_cases km callbacks :
  match Encrypt (km_keyRing km) (password km) (scryptParams km) with
  | Fail err =>
      save km callbacks = (Some (ErrWrap err "unable to encrypt keyRing"), km)
  | Ok ekb =>
      save km callbacks
      = ((saveEncryptedKeyRing (db (orm km)) ekb callbacks).1,
         called km (saveEncryptedKeyRing (db (orm km)) ekb callbacks).2
           (saveEncryptedKeyRing_call ekb callbacks))
  end.
Proof.
  unfold save. destruct (Encrypt _ _ _); [|done].
  by destruct (saveEncryptedKeyRing _ _ _).
Qed.

Lemma save_keeps_scryptParams km callbacks :
  scryptParams (save km callbacks).2 = scryptParams km.
Proof.
  pose proof (save_cases km callbacks) as E.
  destruct (Encrypt _ _ _); by rewrite E.
Qed.

(** X6.  After a safeAddKey that returns nil, looking up the key's id in the
    map of its family gives the key; every other id of that map, every other
    family, the password and the key states are as before. *)
Theorem safeAddKey_then_lookup km km' unknownKey fam callbacks :
  familyOf unknownKey = Some fam →
  safeAddKey km unknownKey callbacks = (Nil, km') →
  familyMap fam (km_keyRing km') !! Key_ID unknownKey = Some (valueOf unknownKey) ∧
  (∀ id, id ≠ Key_ID unknownKey →
     familyMap fam (km_keyRing km') !! id = familyMap fam (km_keyRing km) !! id) ∧
  (∀ fam', fam' ≠ fam →
     familyMap fam' (km_keyRing km') = familyMap fam' (km_keyRing km)) ∧
  password km' = password km ∧
  km_keyStates km' = km_keyStates km.
Proof.
  intros Hfam Hadd.
  rewrite (safeAddKey_family _ _ _ _ Hfam) in Hadd. simpl in Hadd.
  destruct (save _ callbacks).1 eqn:Hsave; [done|].
  injection Hadd as <-.
  rewrite save_keyRing, save_password, save_keyStates. simpl.
  rewrite familyMap_setFamilyMap. split_and!; try done.
  - apply lookup_insert_eq.
  - intros id Hne. by rewrite lookup_insert_ne.
  - intros fam' Hne. by apply familyMap_setFamilyMap_ne.
Qed.

(** X7.  After a safeRemoveKey that returns nil the key's id is no longer in
    the map of its family, and nothing else of the ring has changed.
    Removing a key that the map does not hold is no error: the call returns
    nil with the ring as it was, after a save like any other. *)
Theorem safeRemoveKey_then_lookup km km' unknownKey fam callbacks :
  familyOf unknownKey = Some fam →
  safeRemoveKey km unknownKey callbacks = (Nil, km') →
  familyMap fam (km_keyRing km') !! Key_ID unknownKey = None ∧
  (∀ id, id ≠ Key_ID unknownKey →
     familyMap fam (km_keyRing km') !! id = familyMap fam (km_keyRing km) !! id) ∧
  (∀ fam', fam' ≠ fam →
     familyMap fam' (km_keyRing km') = familyMap fam' (km_keyRing km)) ∧
  (familyMap fam (km_keyRing km) !! Key_ID unknownKey = None →
     km_keyRing km' = km_keyRing km ∧
     ∃ ekb, calls (orm km')
            = (calls (orm km) ++ [saveEncryptedKeyRing_call ekb callbacks])%list).
Proof.
  intros Hfam Hrem.
  rewrite (safeRemoveKey_family _ _ _ _ Hfam) in Hrem. simpl in Hrem.
  destruct (save _ callbacks) as [[err|] km1] eqn:Hsave; [done|].
  simpl in Hrem. injection Hrem as <-.
  pose proof (save_keyRing (set_keyRing km
    (setFamilyMap fam (km_keyRing km)
       (delete (Key_ID unknownKey) (familyMap fam (km_keyRing km))))) callbacks)
    as Hkr.
  rewrite Hsave in Hkr. simpl in Hkr. rewrite Hkr.
  rewrite familyMap_setFamilyMap. split_and!.
  - apply lookup_delete_eq.
  - intros id Hne. by rewrite lookup_delete_ne.
  - intros fam' Hne. by apply familyMap_setFamilyMap_ne.
  - intros Habsent. rewrite (delete_id _ _ Habsent), setFamilyMap_id.
    split; [done|].
    apply save_Nil in Hsave as (ekb & _ & ->). by exists ekb.
Qed.

(** X8.  Add and remove undo each other.  When the id is not in the map of
    the key's family, a successful safeAddKey followed by a successful
    safeRemoveKey of the same key gives back the ring from before; when the
    map holds the key under its id, a successful safeRemoveKey followed by a
    successful safeAddKey gives back the ring from before. *)
Theorem add_remove_round_trip km km1 km2 unknownKey fam callbacks1 callbacks2 :
  familyOf unknownKey = Some fam →
  (familyMap fam (km_keyRing km) !! Key_ID unknownKey = None →
   safeAddKey km unknownKey callbacks1 = (Nil, km1) →
   safeRemoveKey km1 unknownKey callbacks2 = (Nil, km2) →
   km_keyRing km2 = km_keyRing km) ∧
  (familyMap fam (km_keyRing km) !! Key_ID unknownKey = Some (valueOf unknownKey) →
   safeRemoveKey km unknownKey callbacks1 = (Nil, km1) →
   safeAddKey km1 unknownKey callbacks2 = (Nil, km2) →
   km_keyRing km2 = km_keyRing km).
Proof.
  intros Hfam. split; intros Hlook Hfirst Hsecond.
  - rewrite (safeAddKey_family _ _ _ _ Hfam) in Hfirst. simpl in Hfirst.
    destruct (save _ callbacks1).1 eqn:Hs1; [done|]. injection Hfirst as <-.
    rewrite (safeRemoveKey_family _ _ _ _ Hfam) in Hsecond. simpl in Hsecond.
    destruct (save _ callbacks2).1 eqn:Hs2; [done|]. injection Hsecond as <-.
    rewrite !save_keyRing. simpl. rewrite ?save_keyRing. simpl.
    rewrite familyMap_setFamilyMap, setFamilyMap_twice, delete_insert_eq.
    rewrite (delete_id _ _ Hlook). apply setFamilyMap_id.
  - rewrite (safeRemoveKey_family _ _ _ _ Hfam) in Hfirst. simpl in Hfirst.
    destruct (save _ callbacks1).1 eqn:Hs1; [done|]. injection Hfirst as <-.
    rewrite (safeAddKey_family _ _ _ _ Hfam) in Hsecond. simpl in Hsecond.
    destruct (save _ callbacks2).1 eqn:Hs2; [done|]. injection Hsecond as <-.
    rewrite !save_keyRing. simpl. rewrite ?save_keyRing. simpl.
    rewrite familyMap_setFamilyMap, setFamilyMap_twice, insert_delete_eq.
    rewrite (insert_id _ _ _ Hlook). apply setFamilyMap_id.
Qed.

(** X9.  What safeAddKey hands to the store.  On an unlocked manager (its
    key ring is the one that Unlock installed, with allocated maps), for a
    key of a known family, the ring with the key inserted is encrypted with
    the manager's password and parameters.  If that fails, the store is not called and the error is
    the encryption error wrapped.  Otherwise the store receives exactly one
    call, which carries that blob together with the caller's extra writes,
    and the call returns nil or the store's own error, unwrapped. *)
Theorem safeAddKey_store_call km unknownKey fam callbacks :
  password km ≠ "" →
  familyOf unknownKey = Some fam →
  match Encrypt
          (setFamilyMap fam (km_keyRing km)
             (<[Key_ID unknownKey := valueOf unknownKey]>
                (familyMap fam (km_keyRing km))))
          (password km) (scryptParams km) with
  | Fail err =>
      (safeAddKey km unknownKey callbacks).1
        = Err (ErrWrap err "unable to encrypt keyRing") ∧
      orm (safeAddKey km unknownKey callbacks).2 = orm km
  | Ok ekb =>
      (safeAddKey km unknownKey callbacks).1
        = match (saveEncryptedKeyRing (db (orm km)) ekb callbacks).1 with
          | None => Nil
          | Some err => Err err
          end ∧
      db (orm (safeAddKey km unknownKey callbacks).2)
        = (saveEncryptedKeyRing (db (orm km)) ekb callbacks).2 ∧
      calls (orm (safeAddKey km unknownKey callbacks).2)
        = (calls (orm km) ++ [saveEncryptedKeyRing_call ekb callbacks])%list
  end.
Proof.
  intros _ Hfam. rewrite (safeAddKey_family _ _ _ _ Hfam). simpl.
  match goal with
  | |- context [save ?k callbacks] => pose proof (save_cases k callbacks) as E
  end.
  simpl in E.
  destruct (Encrypt _ _ _) as [ekb|err]; rewrite E; simpl; [|done].
  by destruct (saveEncryptedKeyRing _ _ _).1.
Qed.

(** X10.  No sequence of safeAddKey and safeRemoveKey calls, whatever each
    of them returns, changes the password, the key states or the encryption
    parameters; the manager stays locked or unlocked as it was.  The calls
    that reach the store are saves only, at most one for each call made. *)
Theorem mutations_keep_lock_and_states km cs :
  password (mutateAll km cs) = password km ∧
  isLocked (mutateAll km cs) = isLocked km ∧
  km_keyStates (mutateAll km cs) = km_keyStates km ∧
  scryptParams (mutateAll km cs) = scryptParams km ∧
  ∃ saves,
    calls (orm (mutateAll km cs)) = (calls (orm km) ++ saves)%list ∧
    Forall (λ c, isSave c = true) saves ∧
    (List.length saves ≤ List.length cs)%nat.
Proof.
  assert (Hone : ∀ km0 c,
            password (mutate km0 c) = password km0 ∧
            km_keyStates (mutate km0 c) = km_keyStates km0 ∧
            scryptParams (mutate km0 c) = scryptParams km0 ∧
            ∃ saves,
              calls (orm (mutate km0 c)) = (calls (orm km0) ++ saves)%list ∧
              Forall (λ c, isSave c = true) saves ∧ (List.length saves ≤ 1)%nat).
  { assert (Hsave : ∀ km1 callbacks,
              ∃ saves,
                calls (orm (save km1 callbacks).2)
                  = (calls (orm km1) ++ saves)%list ∧
                Forall (λ c, isSave c = true) saves ∧ (List.length saves ≤ 1)%nat).
    { intros km1 callbacks. pose proof (save_cases km1 callbacks) as E.
      destruct (Encrypt _ _ _) as [ekb|err]; rewrite E; simpl.
      - exists [saveEncryptedKeyRing_call ekb callbacks].
        split_and!; [done | by repeat constructor | simpl; lia].
      - exists []. rewrite app_nil_r. split_and!; [done | constructor | simpl; lia]. }
    intros km0 [unknownKey callbacks|unknownKey callbacks]; simpl;
      destruct (familyOf unknownKey) as [fam|] eqn:Hfam.
    - rewrite (safeAddKey_family _ _ _ _ Hfam). simpl.
      match goal with
      | |- context [save ?k callbacks] =>
          destruct (Hsave k callbacks) as (saves & Hc & Hs & Hl);
          pose proof (save_password k callbacks) as Hp;
          pose proof (save_keyStates k callbacks) as Hk;
          pose proof (save_keeps_scryptParams k callbacks) as Hsp
      end.
      destruct (save _ callbacks).1; simpl in *; split_and!; try done;
        by exists saves.
    - rewrite safeAddKey_other by done. split_and!; try done.
      exists []. rewrite app_nil_r. split_and!; [done | constructor | simpl; lia].
    - rewrite (safeRemoveKey_family _ _ _ _ Hfam). simpl.
      match goal with
      | |- context [save ?k callbacks] =>
          destruct (Hsave k callbacks) as (saves & Hc & Hs & Hl);
          pose proof (save_password k callbacks) as Hp;
          pose proof (save_keyStates k callbacks) as Hk;
          pose proof (save_keeps_scryptParams k callbacks) as Hsp
      end.
      destruct (save _ callbacks).1; simpl in *; split_and!; try done;
        by exists saves.
    - rewrite safeRemoveKey_other by done. split_and!; try done.
      exists []. rewrite app_nil_r. split_and!; [done | constructor | simpl; lia]. }
  assert (Hall : password (mutateAll km cs) = password km ∧
            km_keyStates (mutateAll km cs) = km_keyStates km ∧
            scryptParams (mutateAll km cs) = scryptParams km ∧
            ∃ saves,
              calls (orm (mutateAll km cs)) = (calls (orm km) ++ saves)%list ∧
              Forall (λ c, isSave c = true) saves ∧
              (List.length saves ≤ List.length cs)%nat).
  { revert km. induction cs as [|c cs IH]; intros km.
    - split_and!; try done. exists []. rewrite app_nil_r.
      split_and!; [done | constructor | simpl; lia].
    - simpl.
      destruct (Hone km c) as (Hp1 & Hk1 & Hs1 & saves1 & Hc1 & Hf1 & Hl1).
      destruct (IH (mutate km c)) as (Hp & Hk & Hs & saves & Hc & Hf & Hl).
      unfold mutateAll in *.
      split_and!; try congruence.
      exists (saves1 ++ saves)%list. split_and!.
      + rewrite Hc, Hc1. by rewrite <- app_assoc.
      + by apply Forall_app.
      + rewrite length_app. lia. }
  destruct Hall as (Hp & Hk & Hs & Hsaves).
  split_and!; try done.
  unfold isLocked. by rewrite Hp.
Qed.

End MutationExtras.

Section MigrateExtras.
Context `{Collaborators}.

Implicit Types (km : keyManager) (kr : keyRing) (keyMap : gmap string KeyV2).

Lemma firstWithID_Some id keys key :
  firstWithID id keys = Some key → key ∈ keys ∧ ID key = id.
Proof.
  unfold firstWithID. intros Hhead.
  apply head_Some_elem_of, list_elem_of_filter in Hhead. tauto.
Qed.

Lemma migrateKeys_app keys : ∀ keyMap more,
  migrateKeys keyMap (keys ++ more) = migrateKeys (migrateKeys keyMap keys) more.
Proof.
  induction keys as [|key keys IH]; intros keyMap more; simpl; [done|].
  destruct (keyMap !! ID key); apply IH.
Qed.

(** X11.  The merge loop of Migrate only adds.  Every entry of the map
    before the loop is in the map after it, unchanged; the ids after the loop
    are the ids before it together with the ids of the legacy keys; every
    entry that the loop added is a legacy key stored under its own id; and
    merging one list after another is merging their concatenation. *)
Theorem migrateKeys_only_adds keyMap keys :
  keyMap ⊆ migrateKeys keyMap keys ∧
  dom (migrateKeys keyMap keys) = dom keyMap ∪ list_to_set (ID <$> keys) ∧
  (∀ id key, migrateKeys keyMap keys !! id = Some key →
     keyMap !! id = Some key ∨
     (keyMap !! id = None ∧ key ∈ keys ∧ ID key = id)) ∧
  (∀ more, migrateKeys keyMap (keys ++ more)
           = migrateKeys (migrateKeys keyMap keys) more).
Proof.
  split_and!.
  - apply map_subseteq_spec. intros id key Hlook.
    rewrite migrateKeys_lookup. unfold mergedLookup. by rewrite Hlook.
  - apply set_eq. intros id.
    rewrite elem_of_union, !elem_of_dom, elem_of_list_to_set, list_elem_of_fmap.
    rewrite migrateKeys_lookup. unfold mergedLookup.
    destruct (keyMap !! id) as [held|] eqn:Hheld.
    + split; [by left | done].
    + split.
      * intros [key Hkey]. right. apply firstWithID_Some in Hkey as [Hin Hid].
        by exists key.
      * intros [[? [=]]|(key & -> & Hin)].
        pose proof (migrateKeys_covers ∅ keys key Hin) as Hcov.
        rewrite migrateKeys_lookup in Hcov. unfold mergedLookup in Hcov.
        by rewrite lookup_empty in Hcov.
  - intros id key. rewrite migrateKeys_lookup. unfold mergedLookup.
    destruct (keyMap !! id) as [held|]; [by left|].
    intros Hfirst. right. apply firstWithID_Some in Hfirst. tauto.
  - apply migrateKeys_app.
Qed.

(** X12.  When the four legacy reads succeed and the save that follows them
    fails, Migrate returns the error of that save and does not go on to the
    Eth keys.  The merged keys stay in the key ring of the manager: the merge
    is not undone, so every key the ring held is still there and the legacy
    keys are in memory although they were not persisted. *)
Theorem Migrate_bulk_save_failure km vrfPssword chainID
    csaKeys ocrKeys p2pKeys vrfKeys err :
  password km ≠ "" →
  csa_GetV1KeysAsV2 (db (orm km)) = Ok csaKeys →
  ocr_GetV1KeysAsV2 (db (orm km)) = Ok ocrKeys →
  p2p_GetV1KeysAsV2 (db (orm km)) = Ok p2pKeys →
  vrf_GetV1KeysAsV2 (db (orm km)) vrfPssword = Ok vrfKeys →
  (save (afterMerge km csaKeys ocrKeys p2pKeys vrfKeys) []).1 = Some err →
  Migrate km vrfPssword chainID
    = (Err err, (save (afterMerge km csaKeys ocrKeys p2pKeys vrfKeys) []).2) ∧
  km_keyRing (Migrate km vrfPssword chainID).2
    = mergedRing (km_keyRing km) csaKeys ocrKeys p2pKeys vrfKeys ∧
  (∀ fam, familyMap fam (km_keyRing km)
          ⊆ familyMap fam (km_keyRing (Migrate km vrfPssword chainID).2)) ∧
  GetV1KeysAsV2_call "Eth" ∉
    drop (List.length (calls (orm km))) (calls (orm (Migrate km vrfPssword chainID).2)).
Proof.
  intros Hpw Hcsa Hocr Hp2p Hvrf Hsave.
  rewrite (Migrate_merge _ _ _ _ _ _ _ Hpw Hcsa Hocr Hp2p Hvrf).
  pose proof (save_keyRing (afterMerge km csaKeys ocrKeys p2pKeys vrfKeys) [])
    as Hkr.
  pose proof (save_cases (afterMerge km csaKeys ocrKeys p2pKeys vrfKeys) [])
    as Hcases.
  destruct (save (afterMerge km csaKeys ocrKeys p2pKeys vrfKeys) [])
    as [res km1] eqn:Hrun.
  simpl in Hsave, Hkr. subst res. simpl. split_and!; try done.
  - intros fam. rewrite Hkr.
    destruct fam; simpl; try done;
      (apply map_subseteq_spec; intros id key Hlook;
       rewrite migrateKeys_lookup; unfold mergedLookup; by rewrite Hlook).
  - destruct (Encrypt _ _ _) as [ekb|encErr]; injection Hcases as _ ->; simpl.
    + rewrite <- app_assoc, drop_app_length. simpl.
      rewrite !not_elem_of_cons. split_and!; try done. apply not_elem_of_nil.
    + rewrite drop_app_length.
      rewrite !not_elem_of_cons. split_and!; try done. apply not_elem_of_nil.
Qed.

Lemma migrateEthKeys_skips states : ∀ skipped km idx ethKeys,
  (∀ key, key ∈ skipped → is_Some (Eth (km_keyRing km) !! ID key)) →
  migrateEthKeys km idx (skipped ++ ethKeys) states
  = migrateEthKeys km (idx + List.length skipped) ethKeys states.
Proof.
  induction skipped as [|key skipped IH]; intros km idx ethKeys Hall; simpl.
  - by rewrite Nat.add_0_r.
  - destruct (Hall key) as [held ->]; [by left|].
    rewrite IH by (intros k Hk; apply Hall; by right).
    f_equal. lia.
Qed.

(** X13.  The Eth loop of Migrate reads states[idx] only for a key it is
    about to add.  When the legacy Eth keys are read with fewer states than
    keys, Migrate still skips the keys that the ring holds, and panics at the
    first key that it does not hold and whose index has no state; by then
    the four merged families have been saved, and the Eth map is as it
    was. *)
Theorem Migrate_short_states km vrfPssword chainID
    csaKeys ocrKeys p2pKeys vrfKeys km1 skipped ethKey rest states :
  password km ≠ "" →
  csa_GetV1KeysAsV2 (db (orm km)) = Ok csaKeys →
  ocr_GetV1KeysAsV2 (db (orm km)) = Ok ocrKeys →
  p2p_GetV1KeysAsV2 (db (orm km)) = Ok p2pKeys →
  vrf_GetV1KeysAsV2 (db (orm km)) vrfPssword = Ok vrfKeys →
  save (afterMerge km csaKeys ocrKeys p2pKeys vrfKeys) [] = (None, km1) →
  eth_GetV1KeysAsV2 (db (orm km1)) chainID
    = Ok ((skipped ++ ethKey :: rest)%list, states) →
  (∀ key, key ∈ skipped → is_Some (Eth (km_keyRing km) !! ID key)) →
  Eth (km_keyRing km) !! ID ethKey = None →
  (List.length states ≤ List.length skipped)%nat →
  Migrate km vrfPssword chainID
    = (Panic, called km1 (db (orm km1)) (GetV1KeysAsV2_call "Eth")) ∧
  Eth (km_keyRing km1) = Eth (km_keyRing km).
Proof.
  intros Hpw Hcsa Hocr Hp2p Hvrf Hsave Heth Hheld Hnew Hshort.
  assert (Hkr : Eth (km_keyRing km1) = Eth (km_keyRing km)).
  { pose proof (save_keyRing (afterMerge km csaKeys ocrKeys p2pKeys vrfKeys) [])
      as E. rewrite Hsave in E. simpl in E. by rewrite E. }
  split; [|exact Hkr].
  rewrite (Migrate_merge _ _ _ _ _ _ _ Hpw Hcsa Hocr Hp2p Hvrf).
  rewrite Hsave, Heth.
  rewrite migrateEthKeys_skips by (simpl; rewrite Hkr; exact Hheld).
  simpl. rewrite Hkr, Hnew.
  rewrite (lookup_ge_None_2 states) by lia. done.
Qed.

Lemma migrateKeys_subseteq keyMap keys : keyMap ⊆ migrateKeys keyMap keys.
Proof.
  apply map_subseteq_spec. intros id key Hlook.
  rewrite migrateKeys_lookup. unfold mergedLookup. by rewrite Hlook.
Qed.

Lemma mergedRing_subseteq kr csaKeys ocrKeys p2pKeys vrfKeys fam :
  familyMap fam kr
  ⊆ familyMap fam (mergedRing kr csaKeys ocrKeys p2pKeys vrfKeys).
Proof. destruct fam; simpl; try done; apply migrateKeys_subseteq. Qed.

(** Adding a key whose id is not in the ring loses no entry, whether the
    save succeeds or fails. *)
Lemma addEthKeyWithState_keeps km key state fam :
  Eth (km_keyRing km) !! ID key = None →
  familyMap fam (km_keyRing km)
  ⊆ familyMap fam (km_keyRing (addEthKeyWithState km key state).2) ∧
  password (addEthKeyWithState km key state).2 = password km.
Proof.
  intros Hnew. unfold addEthKeyWithState.
  rewrite (safeAddKey_family _ _ famEth) by done. simpl.
  destruct (save _ _).1 eqn:Hsave; simpl;
    rewrite save_keyRing, save_password; simpl; (split; [|done]).
  - rewrite delete_insert_eq, (delete_id _ _ Hnew).
    by destruct fam, (km_keyRing km).
  - destruct fam; simpl; try done. by apply insert_subseteq.
Qed.

Lemma migrateEthKeys_keeps states fam : ∀ ethKeys km idx,
  familyMap fam (km_keyRing km)
  ⊆ familyMap fam (km_keyRing (migrateEthKeys km idx ethKeys states).2) ∧
  password (migrateEthKeys km idx ethKeys states).2 = password km.
Proof.
  induction ethKeys as [|ethKey ethKeys IH]; intros km idx; simpl; [done|].
  destruct (Eth (km_keyRing km) !! ID ethKey) eqn:Hlook; [apply IH|].
  destruct (states !! idx) as [state|]; [|done].
  destruct (addEthKeyWithState_keeps km ethKey state fam Hlook) as (Hsub & Hpw).
  destruct (addEthKeyWithState km ethKey state) as [[| |] km1]; simpl in *;
    try done.
  pose proof (save_keyRing km1 []) as Hkr.
  pose proof (save_password km1 []) as Hp.
  destruct (save km1 []) as [[err|] km2]; simpl in *.
  - rewrite Hkr, Hp. done.
  - destruct (IH km2 (S idx)) as (Hsub2 & Hpw2).
    rewrite Hkr in Hsub2. split; [by etrans | congruence].
Qed.

(** X14.  Migrate never loses a key.  Whatever it returns (nil, the error of
    a read or of a save, or a panic), every entry that the key ring held
    before the call is in the ring after it, under the same id and with the
    same key, and the password is unchanged.  (eth.addEthKeyWithState is
    taken to add through safeAddKey, as section 4.2 of the specification
    says.) *)
Theorem Migrate_keeps_keys km vrfPssword chainID fam :
  familyMap fam (km_keyRing km)
  ⊆ familyMap fam (km_keyRing (Migrate km vrfPssword chainID).2) ∧
  password (Migrate km vrfPssword chainID).2 = password km.
Proof.
  destruct (isLocked km) eqn:Hlocked.
  { unfold Migrate. by rewrite Hlocked. }
  pose proof Hlocked as Hpw. apply isLocked_false in Hpw.
  destruct (csa_GetV1KeysAsV2 (db (orm km))) as [csaKeys|] eqn:Hcsa.
  2:{ unfold Migrate. rewrite Hlocked. simpl. by rewrite Hcsa. }
  destruct (ocr_GetV1KeysAsV2 (db (orm km))) as [ocrKeys|] eqn:Hocr.
  2:{ unfold Migrate. rewrite Hlocked. simpl. rewrite Hcsa. simpl.
      rewrite Hocr. simpl. split; [|done].
      destruct fam; simpl; try done; apply migrateKeys_subseteq. }
  destruct (p2p_GetV1KeysAsV2 (db (orm km))) as [p2pKeys|] eqn:Hp2p.
  2:{ unfold Migrate. rewrite Hlocked. simpl. rewrite Hcsa. simpl.
      rewrite Hocr. simpl. rewrite Hp2p. simpl. split; [|done].
      destruct fam; simpl; try done; apply migrateKeys_subseteq. }
  destruct (vrf_GetV1KeysAsV2 (db (orm km)) vrfPssword) as [vrfKeys|] eqn:Hvrf.
  2:{ unfold Migrate. rewrite Hlocked. simpl. rewrite Hcsa. simpl.
      rewrite Hocr. simpl. rewrite Hp2p. simpl. rewrite Hvrf. simpl.
      split; [|done].
      destruct fam; simpl; try done; apply migrateKeys_subseteq. }
  rewrite (Migrate_merge _ _ _ _ _ _ _ Hpw Hcsa Hocr Hp2p Hvrf).
  pose proof (save_keyRing (afterMerge km csaKeys ocrKeys p2pKeys vrfKeys) [])
    as Hkr.
  pose proof (save_password (afterMerge km csaKeys ocrKeys p2pKeys vrfKeys) [])
    as Hp.
  pose proof (mergedRing_subseteq (km_keyRing km) csaKeys ocrKeys p2pKeys
                vrfKeys fam) as Hmerged.
  destruct (save (afterMerge km csaKeys ocrKeys p2pKeys vrfKeys) [])
    as [[err|] km1]; simpl in Hkr, Hp.
  { simpl. by rewrite Hkr, Hp. }
  destruct (eth_GetV1KeysAsV2 (db (orm km1)) chainID) as [[ethKeys states]|].
  2:{ simpl. by rewrite Hkr, Hp. }
  destruct (migrateEthKeys_keeps states fam ethKeys
              (called km1 (db (orm km1)) (GetV1KeysAsV2_call "Eth")) 0)
    as (Hsub & Hpw2).
  simpl in Hsub, Hpw2. rewrite Hkr in Hsub.
  split; [by etrans | congruence].
Qed.

End MigrateExtras.

Section ExecutorExtras.
Context {Conn Tx Mock : Type} (BeginTxx : Conn → Tx).

Import postgres.

(** X15.  Nesting by reuse.  On a handle that is an open transaction
    SqlxTransaction only runs the function: it begins, commits and rolls
    back nothing, and returns what the function returns.  So a function that
    itself calls SqlxTransaction on the handle it is given behaves, inside a
    transaction, exactly like the function called directly; the same holds
    on an unknown handle when unknown handles are allowed. *)
Theorem SqlxTransaction_nesting (allow : bool)
    (fc : Queryer Conn Tx Mock → option error) :
  (∀ tx, (SqlxTransaction BeginTxx allow (sqlx_Tx tx) fc).1 = fc (sqlx_Tx tx)) ∧
  (∀ tx ev, ev ∈ (SqlxTransaction BeginTxx allow (sqlx_Tx tx) fc).2 →
            ev = Run (sqlx_Tx tx)) ∧
  (∀ tx, SqlxTransaction BeginTxx allow (sqlx_Tx tx)
           (λ q, (SqlxTransaction BeginTxx allow q fc).1)
         = SqlxTransaction BeginTxx allow (sqlx_Tx tx) fc) ∧
  (∀ q, SqlxTransaction BeginTxx true (unknownQueryer q)
          (λ q', (SqlxTransaction BeginTxx true q' fc).1)
        = SqlxTransaction BeginTxx true (unknownQueryer q) fc).
Proof.
  split_and!; try done.
  intros tx ev Hin. simpl in Hin. by apply list_elem_of_singleton in Hin.
Qed.

End ExecutorExtras.

(** * Properties of the peerstore wrapper *)

Section PeerstoreExtras.
Import offchainreporting.
Context {peerID multiaddr Tx : Type}.
Variable Decode : string → result peerID.
Variable NewMultiaddr : string → result multiaddr.
Variable PeersWithAddrs : list peerID.
Variable Addrs : peerID → list multiaddr.
Variable pidString : peerID → string.
Variable addrString : multiaddr → string.
Variable Rebind : string → string.
Variable Exec : Tx → string → list string → option error * Tx.

Lemma scanRows_Ok pairs : ∀ peers,
  scanRows (Ok <$> pairs) peers = Ok (peers ++ (scanned <$> pairs))%list.
Proof.
  induction pairs as [|[id addr] pairs IH]; intros peers; simpl.
  - by rewrite app_nil_r.
  - rewrite IH, <- app_assoc. reflexivity.
Qed.

Lemma scanRows_Fail pairs err later : ∀ peers,
  scanRows ((Ok <$> pairs) ++ Fail err :: later)%list peers
  = Fail (ErrWrap err "unexpected error scanning row").
Proof.
  induction pairs as [|[id addr] pairs IH]; intros peers; simpl; [done|].
  apply IH.
Qed.

(** X16.  getPeers returns all rows or none.  When the query fails it
    returns that error wrapped; when a scan fails it returns that error
    wrapped and drops the rows scanned before it, whatever follows; when the
    iteration ends with an error it returns that error as it is; otherwise
    it returns one peer for each row, in the order of the rows, with the id
    and the address of the row and an empty PeerID field. *)
Theorem getPeers_all_or_nothing :
  (∀ err, getPeers (Fail err) = Fail (ErrWrap err "error querying peers")) ∧
  (∀ rows pairs err later,
     scans rows = ((Ok <$> pairs) ++ Fail err :: later)%list →
     getPeers (Ok rows) = Fail (ErrWrap err "unexpected error scanning row")) ∧
  (∀ rows pairs err,
     scans rows = Ok <$> pairs → rowsErr rows = Some err →
     getPeers (Ok rows) = Fail err) ∧
  (∀ rows pairs,
     scans rows = Ok <$> pairs → rowsErr rows = None →
     getPeers (Ok rows) = Ok (scanned <$> pairs)).
Proof.
  split_and!.
  - done.
  - intros rows pairs err later Hscans. unfold getPeers.
    by rewrite Hscans, scanRows_Fail.
  - intros rows pairs err Hscans Herr. unfold getPeers.
    by rewrite Hscans, scanRows_Ok, Herr.
  - intros rows pairs Hscans Herr. unfold getPeers.
    by rewrite Hscans, scanRows_Ok, Herr.
Qed.

Lemma addPeers_app good entries :
  Forall2 (λ peer entry, decoded Decode NewMultiaddr peer = Some entry)
    good entries →
  ∀ store peers,
    addPeers Decode NewMultiaddr (good ++ peers) store
    = addPeers Decode NewMultiaddr peers (store ++ entries)%list.
Proof.
  induction 1 as [|peer entry good entries Hpeer _ IH]; intros store peers; simpl.
  - by rewrite app_nil_r.
  - unfold decoded in Hpeer.
    destruct (Decode (ID peer)) as [pid|]; [|done].
    destruct (NewMultiaddr (Addr peer)) as [peerAddr|]; [|done].
    injection Hpeer as <-. rewrite IH. by rewrite <- app_assoc.
Qed.

(** X17.  readFromDB loads the rows in order and stops at the first row
    that does not decode.  When every row decodes, each is added to the
    peerstore, in order, and the call returns nil.  When a row does not
    decode, the call returns the decoder's error wrapped with a message that
    quotes the offending id or address; the rows before it have already been
    added and stay in the peerstore, the rows after it are not looked at.
    When getPeers fails, its error is returned and nothing is added. *)
Theorem readFromDB_stops_at_first_bad_row store :
  (∀ query err,
     getPeers query = Fail err →
     readFromDB Decode NewMultiaddr query store = (Some err, store)) ∧
  (∀ query peers entries,
     getPeers query = Ok peers →
     Forall2 (λ peer entry, decoded Decode NewMultiaddr peer = Some entry)
       peers entries →
     readFromDB Decode NewMultiaddr query store
       = (None, (store ++ entries)%list)) ∧
  (∀ query good bad rest entries cause,
     getPeers query = Ok (good ++ bad :: rest)%list →
     Forall2 (λ peer entry, decoded Decode NewMultiaddr peer = Some entry)
       good entries →
     Decode (ID bad) = Fail cause →
     readFromDB Decode NewMultiaddr query store
       = (Some (ErrWrap cause
                  ("unexpectedly failed to decode peer ID '" ++ ID bad ++ "'")),
          (store ++ entries)%list)) ∧
  (∀ query good bad rest entries pid cause,
     getPeers query = Ok (good ++ bad :: rest)%list →
     Forall2 (λ peer entry, decoded Decode NewMultiaddr peer = Some entry)
       good entries →
     Decode (ID bad) = Ok pid →
     NewMultiaddr (Addr bad) = Fail cause →
     readFromDB Decode NewMultiaddr query store
       = (Some (ErrWrap cause
                  ("unexpectedly failed to decode peer multiaddr '"
                   ++ Addr bad ++ "'")),
          (store ++ entries)%list)).
Proof.
  unfold readFromDB. split_and!.
  - intros query err ->. done.
  - intros query peers entries -> Hall.
    pose proof (addPeers_app _ _ Hall store []) as E.
    by rewrite app_nil_r in E.
  - intros query good bad rest entries cause -> Hgood Hbad.
    rewrite (addPeers_app _ _ Hgood). simpl. by rewrite Hbad.
  - intros query good bad rest entries pid cause -> Hgood Hid Haddr.
    rewrite (addPeers_app _ _ Hgood). simpl. by rewrite Hid, Haddr.
Qed.

(** X18.  The transaction of WriteToDB deletes before it inserts.  When the
    DELETE fails, the function returns that error wrapped and executes no
    INSERT.  When the DELETE succeeds, it executes exactly one INSERT, with
    all rows of the peerstore in one statement, and returns nil or the
    INSERT's error wrapped.  With an empty peerstore the INSERT is executed
    all the same, with an empty list of values and no argument. *)
Theorem writePeers_delete_then_insert wrapperPeerID tx :
  (∀ err tx1,
     Exec tx deleteStmt [wrapperPeerID] = (Some err, tx1) →
     writePeers PeersWithAddrs Addrs pidString addrString Rebind Exec
       wrapperPeerID tx
     = (Some (ErrWrap err "delete from p2p_peers failed"), tx1,
        [(deleteStmt, [wrapperPeerID])])) ∧
  (∀ tx1,
     Exec tx deleteStmt [wrapperPeerID] = (None, tx1) →
     let peers := peerRows PeersWithAddrs Addrs pidString addrString
                    wrapperPeerID in
     let stmt := Rebind (insertStmt peers) in
     writePeers PeersWithAddrs Addrs pidString addrString Rebind Exec
       wrapperPeerID tx
     = (Wrap (Exec tx1 stmt (valueArgs peers)).1 "insert into p2p_peers failed",
        (Exec tx1 stmt (valueArgs peers)).2,
        [(deleteStmt, [wrapperPeerID]); (stmt, valueArgs peers)])) ∧
  (PeersWithAddrs = [] →
   insertStmt (peerRows PeersWithAddrs Addrs pidString addrString wrapperPeerID)
     = insertHead ∧
   valueArgs (peerRows PeersWithAddrs Addrs pidString addrString wrapperPeerID)
     = []).
Proof.
  split_and!.
  - intros err tx1 Hdel. unfold writePeers. by rewrite Hdel.
  - intros tx1 Hdel. unfold writePeers. rewrite Hdel. simpl.
    by destruct (Exec tx1 _ _).
  - intros ->. done.
Qed.

Lemma placeholders_app s1 s2 :
  placeholders (s1 ++ s2) = placeholders s1 + placeholders s2.
Proof.
  induction s1 as [|c s1 IH]; simpl; [done|]. rewrite IH. lia.
Qed.

Lemma placeholders_concat (peers : list P2PPeer) :
  placeholders (String.concat "," (valueStrings peers)) = 3 * List.length peers.
Proof.
  induction peers as [|p peers IH]; [done|].
  destruct peers as [|p' peers]; [done|].
  change (valueStrings (p :: p' :: peers))
    with (valueGroup :: valueStrings (p' :: peers)).
  change (String.concat "," (valueGroup :: valueStrings (p' :: peers)))
    with (valueGroup ++ "," ++ String.concat "," (valueStrings (p' :: peers))).
  rewrite !placeholders_app, IH.
  change (placeholders valueGroup) with 3. change (placeholders ",") with 0.
  simpl List.length. lia.
Qed.

(** X19.  The INSERT of WriteToDB has as many placeholders as arguments:
    three for each row, in the order id, address, peer id.  There is one row
    for each address of each peer of the peerstore, and every row carries
    the wrapper's own peer id. *)
Theorem insert_placeholders_match_args wrapperPeerID (peers : list P2PPeer) :
  placeholders (insertStmt peers) = List.length (valueArgs peers) ∧
  List.length (valueArgs peers) = 3 * List.length peers ∧
  (∀ i p, peers !! i = Some p →
     valueArgs peers !! (3 * i) = Some (ID p) ∧
     valueArgs peers !! (3 * i + 1) = Some (Addr p) ∧
     valueArgs peers !! (3 * i + 2) = Some (PeerID p)) ∧
  List.length (peerRows PeersWithAddrs Addrs pidString addrString wrapperPeerID)
    = sum_list ((λ pid, List.length (Addrs pid)) <$> PeersWithAddrs) ∧
  Forall (λ p, PeerID p = wrapperPeerID)
    (peerRows PeersWithAddrs Addrs pidString addrString wrapperPeerID).
Proof.
  assert (Hlen : ∀ l : list P2PPeer,
            List.length (valueArgs l) = 3 * List.length l).
  { induction l as [|p l IH]; simpl; [done|]. rewrite IH. lia. }
  split_and!.
  - unfold insertStmt. rewrite placeholders_app, placeholders_concat, Hlen.
    done.
  - apply Hlen.
  - induction peers as [|q peers IH]; intros i p Hi; [done|].
    destruct i as [|i]; simpl in Hi.
    + injection Hi as ->. done.
    + destruct (IH i p Hi) as (H0 & H1 & H2).
      replace (3 * S i) with (S (S (S (3 * i)))) by lia.
      split_and!; simpl; [exact H0 | exact H1 | exact H2].
  - unfold peerRows. induction PeersWithAddrs as [|pid pids IH]; simpl; [done|].
    rewrite length_app, length_map, IH. done.
  - unfold peerRows. induction PeersWithAddrs as [|pid pids IH]; simpl;
      [constructor|].
    apply Forall_app. split; [|exact IH].
    apply Forall_forall. intros p Hp.
    apply list_elem_of_fmap in Hp as (addr & -> & _). done.
Qed.

End PeerstoreExtras.

(** * The further properties on the store kept in memory *)

(** A first Unlock with the right password. *)
Lemma Unlock_first_success_witness :
  password memstore.locked = "" ∧
  (Unlock memstore.locked "pw1").1 = None ∧
  km_keyRing (Unlock memstore.locked "pw1").2
    = memstore.ringEth {[ "k1" := memstore.k1 ]} ∧
  password (Unlock memstore.locked "pw1").2 = "pw1".
Proof.
  split; [reflexivity|].
  assert (Hval : @validate memstore.memCollab {| ksEth := ∅ |}
                   (memstore.ringEth {[ "k1" := memstore.k1 ]}) = None)
    by (vm_compute; reflexivity).
  destruct (Unlock_first_success memstore.locked "pw1"
              ("pw1", memstore.ringEth {[ "k1" := memstore.k1 ]})
              (memstore.ringEth {[ "k1" := memstore.k1 ]}) {| ksEth := ∅ |}
              eq_refl eq_refl eq_refl eq_refl Hval) as (Hnil & Hstate & _).
  split; [exact Hnil|].
  split; [exact (f_equal (λ g, g.1.1) Hstate) | exact (f_equal snd Hstate)].
Defined.

(** A wrong password first, the right one after. *)
Lemma Unlock_retry_witness :
  password memstore.locked = "" ∧
  (Unlock memstore.locked "wrong").1
    = Some (ErrWrap memstore.ErrDecrypt "unable to decrypt encrypted key ring") ∧
  (Unlock (Unlock memstore.locked "wrong").2 "pw1").1 = None ∧
  guarded (Unlock (Unlock memstore.locked "wrong").2 "pw1").2
    = guarded (Unlock memstore.locked "pw1").2.
Proof.
  split; [reflexivity|]. split; [reflexivity|].
  assert (Hval : @validate memstore.memCollab {| ksEth := ∅ |}
                   (memstore.ringEth {[ "k1" := memstore.k1 ]}) = None)
    by (vm_compute; reflexivity).
  destruct (Unlock_retry memstore.locked "wrong"
              (ErrWrap memstore.ErrDecrypt "unable to decrypt encrypted key ring")
              "pw1" ("pw1", memstore.ringEth {[ "k1" := memstore.k1 ]})
              (memstore.ringEth {[ "k1" := memstore.k1 ]}) {| ksEth := ∅ |}
              eq_refl eq_refl eq_refl eq_refl eq_refl Hval)
    as (Hnil & _ & Hsame).
  split; [exact Hnil | exact Hsame].
Defined.

(** Unlock with "pw1", and Unlock with the empty password on a ring sealed
    with the empty password. *)
Lemma Unlock_success_password_witness :
  Unlock memstore.locked "pw1" = (None, memstore.unlocked) ∧
  password memstore.unlocked = "pw1" ∧
  Unlock memstore.unlocked "pw2" = (Some PasswordMismatch, memstore.unlocked) ∧
  (Unlock memstore.lockedEmpty "").1 = None ∧
  isLocked (Unlock memstore.lockedEmpty "").2 = true.
Proof.
  assert (Hnil : (Unlock memstore.locked "pw1").1 = None)
    by (vm_compute; reflexivity).
  assert (Hrun : Unlock memstore.locked "pw1" = (None, memstore.unlocked)).
  { unfold memstore.unlocked.
    destruct (Unlock memstore.locked "pw1") as [res km']. simpl in Hnil.
    by rewrite Hnil. }
  assert (Hnil0 : (Unlock memstore.lockedEmpty "").1 = None)
    by (vm_compute; reflexivity).
  assert (Hrun0 : Unlock memstore.lockedEmpty ""
                  = (None, (Unlock memstore.lockedEmpty "").2)).
  { destruct (Unlock memstore.lockedEmpty "") as [res km']. simpl in Hnil0.
    by rewrite Hnil0. }
  destruct (Unlock_success_password memstore.locked "pw1" memstore.unlocked Hrun)
    as (Hpw & _ & _ & Hother).
  destruct (Unlock_success_password memstore.lockedEmpty ""
              (Unlock memstore.lockedEmpty "").2 Hrun0)
    as (_ & Hlocked & _).
  split; [exact Hrun|]. split; [exact Hpw|].
  split; [apply Hother; discriminate|].
  split; [exact Hnil0 | by apply Hlocked].
Defined.

(** Adding k2 to a manager that holds k1. *)
Lemma safeAddKey_then_lookup_witness :
  (safeAddKey memstore.holdsK1' (ethkey_KeyV2 memstore.k2) []).1 = Nil ∧
  Eth (km_keyRing (safeAddKey memstore.holdsK1' (ethkey_KeyV2 memstore.k2) []).2)
    !! "k2" = Some memstore.k2 ∧
  Eth (km_keyRing (safeAddKey memstore.holdsK1' (ethkey_KeyV2 memstore.k2) []).2)
    !! "k1" = Eth (km_keyRing memstore.holdsK1') !! "k1".
Proof.
  assert (Hnil : (safeAddKey memstore.holdsK1' (ethkey_KeyV2 memstore.k2) []).1
                 = Nil) by (vm_compute; reflexivity).
  split; [exact Hnil|].
  assert (Hrun : safeAddKey memstore.holdsK1' (ethkey_KeyV2 memstore.k2) []
                 = (Nil, (safeAddKey memstore.holdsK1'
                            (ethkey_KeyV2 memstore.k2) []).2)).
  { destruct (safeAddKey memstore.holdsK1' (ethkey_KeyV2 memstore.k2) [])
      as [res km']. simpl in Hnil. by rewrite Hnil. }
  destruct (safeAddKey_then_lookup memstore.holdsK1' _
              (ethkey_KeyV2 memstore.k2) famEth [] eq_refl Hrun)
    as (Hnew & Hold & _).
  split; [exact Hnew|]. apply (Hold "k1"). discriminate.
Defined.

(** Removing k2, which the manager does not hold. *)
Lemma safeRemoveKey_then_lookup_witness :
  (safeRemoveKey memstore.holdsK1' (ethkey_KeyV2 memstore.k2) []).1 = Nil ∧
  Eth (km_keyRing memstore.holdsK1') !! "k2" = None ∧
  km_keyRing (safeRemoveKey memstore.holdsK1' (ethkey_KeyV2 memstore.k2) []).2
    = km_keyRing memstore.holdsK1'.
Proof.
  assert (Hnil : (safeRemoveKey memstore.holdsK1' (ethkey_KeyV2 memstore.k2) []).1
                 = Nil) by (vm_compute; reflexivity).
  split; [exact Hnil|]. split; [reflexivity|].
  assert (Hrun : safeRemoveKey memstore.holdsK1' (ethkey_KeyV2 memstore.k2) []
                 = (Nil, (safeRemoveKey memstore.holdsK1'
                            (ethkey_KeyV2 memstore.k2) []).2)).
  { destruct (safeRemoveKey memstore.holdsK1' (ethkey_KeyV2 memstore.k2) [])
      as [res km']. simpl in Hnil. by rewrite Hnil. }
  destruct (safeRemoveKey_then_lookup memstore.holdsK1' _
              (ethkey_KeyV2 memstore.k2) famEth [] eq_refl Hrun)
    as (_ & _ & _ & Habsent).
  apply Habsent. reflexivity.
Defined.

(** Adding k2 and removing it again. *)
Lemma add_remove_round_trip_witness :
  Eth (km_keyRing memstore.holdsK1') !! "k2" = None ∧
  (safeAddKey memstore.holdsK1' (ethkey_KeyV2 memstore.k2) []).1 = Nil ∧
  (safeRemoveKey
     (safeAddKey memstore.holdsK1' (ethkey_KeyV2 memstore.k2) []).2
     (ethkey_KeyV2 memstore.k2) []).1 = Nil ∧
  km_keyRing
    (safeRemoveKey
       (safeAddKey memstore.holdsK1' (ethkey_KeyV2 memstore.k2) []).2
       (ethkey_KeyV2 memstore.k2) []).2
    = km_keyRing memstore.holdsK1'.
Proof.
  assert (Hnil1 : (safeAddKey memstore.holdsK1' (ethkey_KeyV2 memstore.k2) []).1
                  = Nil) by (vm_compute; reflexivity).
  assert (Hnil2 : (safeRemoveKey
                     (safeAddKey memstore.holdsK1' (ethkey_KeyV2 memstore.k2) []).2
                     (ethkey_KeyV2 memstore.k2) []).1 = Nil)
    by (vm_compute; reflexivity).
  split; [reflexivity|]. split; [exact Hnil1|]. split; [exact Hnil2|].
  destruct (add_remove_round_trip memstore.holdsK1'
              (safeAddKey memstore.holdsK1' (ethkey_KeyV2 memstore.k2) []).2
              (safeRemoveKey
                 (safeAddKey memstore.holdsK1' (ethkey_KeyV2 memstore.k2) []).2
                 (ethkey_KeyV2 memstore.k2) []).2
              (ethkey_KeyV2 memstore.k2) famEth [] [] eq_refl) as (Hround & _).
  apply Hround; [reflexivity | |].
  - destruct (safeAddKey memstore.holdsK1' (ethkey_KeyV2 memstore.k2) [])
      as [res km']. simpl in Hnil1. by rewrite Hnil1.
  - destruct (safeRemoveKey _ (ethkey_KeyV2 memstore.k2) []) as [res km'].
    simpl in Hnil2. by rewrite Hnil2.
Defined.

(** The one call that the store receives when k2 is added with its state
    write. *)
Lemma safeAddKey_store_call_witness :
  password memstore.holdsK1' ≠ "" ∧
  familyOf (ethkey_KeyV2 memstore.k2) = Some famEth ∧
  calls (orm (safeAddKey memstore.holdsK1' (ethkey_KeyV2 memstore.k2)
                [("k2", 1%Z)]).2)
    = (calls (orm memstore.holdsK1')
       ++ [saveEncryptedKeyRing_call
             ("pw1",
              setFamilyMap famEth (km_keyRing memstore.holdsK1')
                (<[Key_ID (ethkey_KeyV2 memstore.k2)
                   := valueOf (ethkey_KeyV2 memstore.k2)]>
                   (familyMap famEth (km_keyRing memstore.holdsK1'))))
             [("k2", 1%Z)]])%list.
Proof.
  assert (Hset : password memstore.holdsK1' ≠ "") by (simpl; discriminate).
  split; [exact Hset|]. split; [reflexivity|].
  exact (proj2 (proj2 (safeAddKey_store_call memstore.holdsK1'
                         (ethkey_KeyV2 memstore.k2) famEth [("k2", 1%Z)]
                         Hset eq_refl))).
Defined.

(** A store that rejects the save after the merges. *)
Lemma Migrate_bulk_save_failure_witness :
  password memstore.staleStore ≠ "" ∧
  (save (afterMerge memstore.staleStore [memstore.k1] [] [memstore.k3] []) []).1
    = Some memstore.ErrStore ∧
  (Migrate memstore.staleStore "" 1).1 = Err memstore.ErrStore ∧
  km_keyRing (Migrate memstore.staleStore "" 1).2
    = mergedRing (km_keyRing memstore.staleStore)
        [memstore.k1] [] [memstore.k3] [].
Proof.
  assert (Hset : password memstore.staleStore ≠ "") by (simpl; discriminate).
  assert (Hsave : (save (afterMerge memstore.staleStore
                           [memstore.k1] [] [memstore.k3] []) []).1
                  = Some memstore.ErrStore) by (vm_compute; reflexivity).
  split; [exact Hset|]. split; [exact Hsave|].
  destruct (Migrate_bulk_save_failure memstore.staleStore "" 1
              [memstore.k1] [] [memstore.k3] [] memstore.ErrStore
              Hset eq_refl eq_refl eq_refl eq_refl Hsave)
    as (Hrun & Hring & _).
  split; [by rewrite Hrun | exact Hring].
Defined.

(** A legacy Eth key without a state. *)
Lemma Migrate_short_states_witness :
  password memstore.shortStates ≠ "" ∧
  Eth (km_keyRing memstore.shortStates) !! "k2" = None ∧
  (Migrate memstore.shortStates "" 1).1 = Panic.
Proof.
  assert (Hset : password memstore.shortStates ≠ "") by (simpl; discriminate).
  split; [exact Hset|]. split; [reflexivity|].
  assert (Hnil : (save (afterMerge memstore.shortStates
                          [memstore.k1] [] [memstore.k3] []) []).1 = None)
    by (vm_compute; reflexivity).
  assert (Hsave : save (afterMerge memstore.shortStates
                          [memstore.k1] [] [memstore.k3] []) []
                  = (None, (save (afterMerge memstore.shortStates
                                    [memstore.k1] [] [memstore.k3] []) []).2)).
  { destruct (save _ []) as [res km']. simpl in Hnil. by rewrite Hnil. }
  assert (Heth : eth_GetV1KeysAsV2
                   (db (orm (save (afterMerge memstore.shortStates
                                     [memstore.k1] [] [memstore.k3] []) []).2)) 1
                 = Ok (([] ++ memstore.k2 :: [])%list, []))
    by (vm_compute; reflexivity).
  destruct (Migrate_short_states memstore.shortStates "" 1
              [memstore.k1] [] [memstore.k3] [] _ [] memstore.k2 [] []
              Hset eq_refl eq_refl eq_refl eq_refl Hsave Heth) as (Hrun & _).
  - intros key Hin. by apply elem_of_nil in Hin.
  - reflexivity.
  - simpl. lia.
  - by rewrite Hrun.
Defined.

(** Three rows of which the second has an empty id. *)
Lemma readFromDB_stops_at_first_bad_row_witness :
  offchainreporting.readFromDB memstore.decodeNonEmpty memstore.decodeNonEmpty
    (Ok memstore.threeRows) []
  = (Some (ErrWrap (ErrNew "empty") "unexpectedly failed to decode peer ID ''"),
     [("peerA", "/ip4/1.2.3.4/tcp/1")]).
Proof.
  destruct (readFromDB_stops_at_first_bad_row
              memstore.decodeNonEmpty memstore.decodeNonEmpty [])
    as (_ & _ & Hbad & _).
  apply (Hbad (Ok memstore.threeRows)
           [offchainreporting.scanned ("peerA", "/ip4/1.2.3.4/tcp/1")]
           (offchainreporting.scanned ("", "/ip4/9.9.9.9/tcp/1"))
           [offchainreporting.scanned ("peerB", "/ip4/5.6.7.8/tcp/1")]
           [("peerA", "/ip4/1.2.3.4/tcp/1")] (ErrNew "empty")).
  - reflexivity.
  - repeat constructor.
  - reflexivity.
Defined.

(** A transaction that refuses the DELETE. *)
Lemma writePeers_delete_then_insert_witness :
  offchainreporting.writePeers ["peerA"; "peerB"] memstore.peerAddrs id id id
    (memstore.execCounting true) "self" 0
  = (Some (ErrWrap memstore.ErrQuery "delete from p2p_peers failed"), 1,
     [(offchainreporting.deleteStmt, ["self"])]).
Proof.
  destruct (writePeers_delete_then_insert ["peerA"; "peerB"] memstore.peerAddrs
              id id id (memstore.execCounting true) "self" 0) as (Hdelete & _).
  apply Hdelete. reflexivity.
Defined.
